(** * FractureSegmentation: the pre-processing pipeline of [models/PreProcessor.py]

    A shallow embedding of the [PreProcessor] class: threshold segmentation,
    the parallel threshold scan with its dip selection, largest-component
    selection and the pelvis locator.  Intensity samples are integers ([Z]);
    positions in arrays are [nat]; a Python exception is a value of [exn]
    carried by the [result] monad. *)

From stdpp Require Import base option list gmap strings.
From Stdlib Require Import ZArith Lia Ascii.

Local Open Scope Z_scope.

(** ** Exceptions *)

(** The exceptions the Python code can raise on the paths modelled here,
    followed by the three named conditions of the specification, which the
    source never raises (they are here so that statements can tell them
    apart from what the code does raise). *)
Inductive exn : Set :=
  | IndexError
  | ValueError
  | ZeroDivisionError
  | KeyError
  | NoThresholdFound
  | EmptyMaskError
  | BoundsNotFoundError.

Inductive result (A : Type) : Type :=
  | Ok (a : A)
  | Raise (e : exn).
Arguments Ok {A} a.
Arguments Raise {A} e.

#[global] Instance result_ret : MRet result := fun A a => Ok a.
#[global] Instance result_bind : MBind result := fun A B f m =>
  match m with
  | Ok a => f a
  | Raise e => Raise e
  end.

#[global] Instance result_fmap : FMap result := fun A B f m =>
  match m with
  | Ok a => Ok (f a)
  | Raise e => Raise e
  end.

#[global] Instance exn_eq_dec : EqDecision exn.
Proof. solve_decision. Defined.

(** ** Module constants *)

Definition MAX_VOXEL_VALUE : Z := 65535.
Definition MIN_VOXEL_VALUE : Z := 0.

(** ** Python and numpy primitives *)

Module py.

(** [l[i]] for a non-negative position: [IndexError] out of range. *)
Definition index {A} (l : list A) (i : nat) : result A :=
  match l !! i with
  | Some a => Ok a
  | None => Raise IndexError
  end.

(** A slice bound [i] of a sequence of length [n], as Python clips it:
    a negative bound counts from the end, and everything is clamped
    into [0, n]. *)
Definition clip (n : nat) (i : Z) : nat :=
  Z.to_nat (if i <? 0 then Z.max (i + Z.of_nat n) 0 else Z.min i (Z.of_nat n)).

(** [l[start:stop]]; a missing bound is [None]. *)
Definition slice {A} (start stop : option Z) (l : list A) : list A :=
  let n := length l in
  let lo := from_option (clip n) 0%nat start in
  let hi := from_option (clip n) n stop in
  take (hi - lo) (drop lo l).

(** [a // b] on Python integers: floor division, [ZeroDivisionError]
    for a zero divisor. *)
Definition floordiv (a b : Z) : result Z :=
  if b =? 0 then Raise ZeroDivisionError else Ok (a / b).

End py.

Module np.

(** [ndarray.astype(np.uint16)] on an integer-valued sample: the value
    reduced modulo 2^16. *)
Definition uint16 (v : Z) : Z := v mod 65536.

(** [np.arange(start, stop, step)] for a non-zero integer step: the
    [ceil((stop - start) / step)] values [start + k * step]. *)
Definition arange (start stop step : Z) : list Z :=
  let len := Z.to_nat (- ((start - stop) / step)) in
  map (fun k => start + Z.of_nat k * step) (seq 0 len).

(** [np.where(mask)[0]] on a one-dimensional boolean array: the
    positions that hold [True], ascending. *)
Fixpoint where_from (i : nat) (mask : list bool) : list nat :=
  match mask with
  | [] => []
  | b :: rest => if b then i :: where_from (S i) rest else where_from (S i) rest
  end.
Definition where1 (mask : list bool) : list nat := where_from 0 mask.

(** Elementwise [a < b] of two arrays of one shape. *)
Definition less (a b : list Z) : list bool := zip_with Z.ltb a b.

(** Elementwise product of two boolean arrays: the conjunction. *)
Definition mul_bool (a b : list bool) : list bool := zip_with andb a b.

(** [np.argmax(a)]: the first position of the maximum, [ValueError] on
    an empty array. *)
Fixpoint argmax_from (best : nat) (bv : nat) (i : nat) (a : list nat) : nat :=
  match a with
  | [] => best
  | v :: rest =>
      if (bv <? v)%nat then argmax_from i v (S i) rest
      else argmax_from best bv (S i) rest
  end.
Definition argmax (a : list nat) : result nat :=
  match a with
  | [] => Raise ValueError
  | v :: rest => Ok (argmax_from 0 v 1 rest)
  end.

(** [np.bincount(x)] for non-negative integers: the number of
    occurrences of each value from 0 to the maximum of [x]; empty for an
    empty [x]. *)
Definition count (k : nat) (x : list nat) : nat :=
  length (filter (fun v => v = k) x).
Definition bincount (x : list nat) : list nat :=
  match x with
  | [] => []
  | _ => map (fun k => count k x) (seq 0 (S (foldr Nat.max 0%nat x)))
  end.

End np.

(** ** The dip detector, [find_all_minima] *)

(** The comparison is made on the interior slice [minimas[1:-1]], and
    [np.where] answers with positions in that slice. *)
Definition find_all_minima (connectivity_cmps : list Z) : list nat :=
  let minimas := connectivity_cmps in
  let inner := py.slice (Some 1) (Some (-1)) minimas in
  let left := py.slice (Some 0) (Some (-2)) minimas in
  let right := py.slice (Some 2) None minimas in
  np.where1 (np.mul_bool (np.less inner left) (np.less inner right)).

(** What the specification calls a dip: an interior position whose value
    is strictly below both neighbours. *)
Definition strict_interior_min (curve : list Z) (i : nat) : Prop :=
  (1 <= i)%nat /\ (i + 2 <= length curve)%nat /\
  exists a m b, curve !! (i - 1)%nat = Some a /\ curve !! i = Some m /\
                curve !! (i + 1)%nat = Some b /\ m < a /\ m < b.

(** ** Three-dimensional arrays *)

(** A numpy array of three axes: its shape and its samples in C order
    (the last axis varies fastest), the order of [ndarray.flat]. *)
Record ndarray (A : Type) : Type := mk_ndarray {
  shape : nat * nat * nat;
  data : list A
}.
Arguments mk_ndarray {A} shape data.
Arguments shape {A} _.
Arguments data {A} _.

Definition coord : Set := (nat * nat * nat)%type.

Definition size (sh : nat * nat * nat) : nat :=
  let '(nx, ny, nz) := sh in (nx * ny * nz)%nat.

(** The invariant of every numpy array: as many samples as the shape says. *)
Definition wf {A} (a : ndarray A) : Prop := length (data a) = size (shape a).

Definition ravel (sh : nat * nat * nat) (p : coord) : nat :=
  let '(nx, ny, nz) := sh in
  let '(x, y, z) := p in ((x * ny + y) * nz + z)%nat.

Definition unravel (sh : nat * nat * nat) (i : nat) : coord :=
  let '(nx, ny, nz) := sh in
  ((i / (ny * nz))%nat, ((i / nz) mod ny)%nat, (i mod nz)%nat).

(** [a[x, y, z]] for a position inside the shape. *)
Definition get {A} (d : A) (a : ndarray A) (p : coord) : A :=
  nth (ravel (shape a) p) (data a) d.

(** The array of shape [sh] whose sample at [p] is [f p]. *)
Definition tabulate {A} (sh : nat * nat * nat) (f : coord -> A) : ndarray A :=
  mk_ndarray sh (map (fun i => f (unravel sh i)) (seq 0 (size sh))).

(** An elementwise operation. *)
Definition amap {A B} (f : A -> B) (a : ndarray A) : ndarray B :=
  mk_ndarray (shape a) (map f (data a)).

(** An elementwise operation on two arrays of one shape. *)
Definition azip {A B C} (f : A -> B -> C) (a : ndarray A) (b : ndarray B) : ndarray C :=
  mk_ndarray (shape a) (zip_with f (data a) (data b)).

(** [np.count_nonzero]: the number of foreground voxels of a mask. *)
Definition count_nonzero (a : ndarray Z) : nat :=
  length (filter (fun v => v <> 0) (data a)).

Definition all_zero (a : ndarray Z) : Prop := Forall (fun v => v = 0) (data a).

(** ** Grey-scale morphology, [skimage.morphology] *)

Module morphology.

(** A position one step outside an axis of length [n] is read, in
    scipy's default [reflect] mode, at the nearest position inside. *)
Definition before (x : nat) : nat := pred x.
Definition after (n x : nat) : nat := if (S x <? n)%nat then S x else x.

(** The default footprint: the centre and its face neighbours
    ([generate_binary_structure(3, 1)]). *)
Definition footprint (sh : nat * nat * nat) (p : coord) : list coord :=
  let '(nx, ny, nz) := sh in
  let '(x, y, z) := p in
  [ (x, y, z);
    (before x, y, z); (after nx x, y, z);
    (x, before y, z); (x, after ny y, z);
    (x, y, before z); (x, y, after nz z) ].

Definition over_footprint (op : Z -> Z -> Z) (img : ndarray Z) : ndarray Z :=
  tabulate (shape img) (fun p =>
    foldr op (get 0 img p) (map (get 0 img) (footprint (shape img) p))).

(** [erosion]: the minimum over the footprint. *)
Definition erosion : ndarray Z -> ndarray Z := over_footprint Z.min.

(** [dilation]: the maximum over the footprint. *)
Definition dilation : ndarray Z -> ndarray Z := over_footprint Z.max.

Definition opening (img : ndarray Z) : ndarray Z := dilation (erosion img).

Definition closing (img : ndarray Z) : ndarray Z := erosion (dilation img).

End morphology.

(** ** Threshold segmentation, [SegmentationByTH] *)

(** The two masked assignments on the [uint16] copy of the image: first
    the voxels inside the window are set to [MAX_VOXEL_VALUE], then every
    voxel below [MAX_VOXEL_VALUE] is set to 0. *)
Definition mark_window (Imin Imax : Z) (c : Z) : Z :=
  if (c <=? Imax) && (c >? Imin) then MAX_VOXEL_VALUE else c.

Definition clear_below_max (c : Z) : Z :=
  if c <? MAX_VOXEL_VALUE then 0 else c.

Definition threshold_step (img_data : ndarray Z) (Imin Imax : Z) : ndarray Z :=
  let img := amap np.uint16 img_data in
  let img := amap (mark_window Imin Imax) img in
  amap clear_below_max img.

Definition SegmentationByTH (img_data : ndarray Z) (Imin Imax : Z) : ndarray Z :=
  let img := threshold_step img_data Imin Imax in
  let opened_img := morphology.opening img in
  let closed_img := morphology.closing opened_img in
  closed_img.

(** ** Connected-component labelling, [skimage.measure.label] *)

Module measure.

Definition near (a b : nat) : bool := (a <=? S b)%nat && (b <=? S a)%nat.

(** Full connectivity (the default, [connectivity = ndim]): two distinct
    voxels are neighbours when no coordinate differs by more than one. *)
Definition adjacent (sh : nat * nat * nat) (i j : nat) : bool :=
  let '(x, y, z) := unravel sh i in
  let '(x', y', z') := unravel sh j in
  negb (i =? j)%nat && near x x' && near y y' && near z z'.

(** One round of region growing for label [k]: an unlabelled voxel of
    the region's value that touches the region joins it. *)
Definition grow (img : ndarray Z) (k : nat) (v : Z) (labs : list nat) : list nat :=
  imap (fun j lj =>
    if (lj =? 0)%nat && (nth j (data img) 0 =? v)
       && existsb (fun m => (nth m labs 0%nat =? k)%nat && adjacent (shape img) j m)
                  (seq 0 (length labs))
    then k else lj) labs.

Fixpoint flood (rounds : nat) (img : ndarray Z) (k : nat) (v : Z) (labs : list nat) : list nat :=
  match rounds with
  | O => labs
  | S r => flood r img k v (grow img k v labs)
  end.

(** The raster scan: the first voxel of each region met in C order
    receives the next label, which spreads to its whole region.
    Background (0) keeps label 0. *)
Fixpoint scan (img : ndarray Z) (todo : list nat) (labs : list nat) (n : nat)
  : list nat * nat :=
  match todo with
  | [] => (labs, n)
  | i :: rest =>
      if (nth i (data img) 0 =? 0) || negb (nth i labs 0%nat =? 0)%nat
      then scan img rest labs n
      else scan img rest
             (flood (length labs) img (S n) (nth i (data img) 0) (<[i := S n]> labs))
             (S n)
  end.

(** [label(img, return_num=True)]: the label array and the number of
    labels. *)
Definition label (img : ndarray Z) : ndarray nat * nat :=
  let n := size (shape img) in
  let '(labs, num) := scan img (seq 0 n) (replicate n 0%nat) 0%nat in
  (mk_ndarray (shape img) labs, num).

End measure.

(** ** Invariants of the labelling *)

(** How the label array may change while label [k] spreads over the
    region of value [v]: an entry stays, or an unlabelled voxel of value
    [v] receives [k]. *)
Definition spreads (img : ndarray Z) (k : nat) (v : Z) (labs labs' : list nat) : Prop :=
  length labs' = length labs /\
  forall j l', labs' !! j = Some l' ->
    exists l, labs !! j = Some l /\
              (l' = l \/ (l = 0%nat /\ nth j (data img) 0 = v /\ l' = k)).

(** The state of the raster scan after [n] labels: every label in use is
    at most [n], each of the labels 1 to [n] is in use, and only
    foreground voxels are labelled. *)
Definition labelled (img : ndarray Z) (labs : list nat) (n : nat) : Prop :=
  length labs = size (shape img) /\
  (forall j l, labs !! j = Some l -> (l <= n)%nat) /\
  (forall l, (1 <= l <= n)%nat -> l ∈ labs) /\
  (forall j l, labs !! j = Some l -> l <> 0%nat -> nth j (data img) 0 <> 0).

(** ** Connected components *)

(** Two voxels touch when they are neighbours and hold one value; a
    connected component is a class of voxels linked by a chain of such
    steps. *)
Definition touch (img : ndarray Z) (j m : nat) : Prop :=
  (j < size (shape img))%nat /\ (m < size (shape img))%nat /\
  measure.adjacent (shape img) j m = true /\
  nth j (data img) 0 = nth m (data img) 0.

Definition linked (img : ndarray Z) : nat -> nat -> Prop := rtc (touch img).

(** A mask has exactly one connected component: it has a foreground
    voxel, and any two foreground voxels are linked. *)
Definition single_component (M : ndarray Z) : Prop :=
  (exists j, (j < size (shape M))%nat /\ nth j (data M) 0 <> 0) /\
  forall j m, (j < size (shape M))%nat -> (m < size (shape M))%nat ->
              nth j (data M) 0 <> 0 -> nth m (data M) 0 <> 0 -> linked M j m.

(** The labelled regions of a label array: voxels of one label are
    linked, and a labelled voxel passes its label to the voxels it
    touches. *)
Definition regions (img : ndarray Z) (labs : list nat) : Prop :=
  (forall j m l, labs !! j = Some l -> labs !! m = Some l -> l <> 0%nat -> linked img j m) /\
  (forall j m l, labs !! j = Some l -> l <> 0%nat -> touch img j m -> labs !! m = Some l).

(** The region of label [k] while it grows from the seed [i]: its voxels
    hold the value [v] and are linked to the seed. *)
Definition region_of (img : ndarray Z) (k : nat) (v : Z) (i : nat) (labs : list nat) : Prop :=
  forall m, labs !! m = Some k -> nth m (data img) 0 = v /\ linked img i m.

(** ** The parallel threshold scan, [SkeletonTHFinder] *)

(** [_tasks_distribution]: one [np.arange] of [d] thresholds per core,
    [d] being the floor of the floor of [(514 - 150) / resolution] by the
    number of cores. *)
Definition _tasks_distribution (resolution : Z) (num_cores : nat) : result (list (list Z)) :=
  q ← py.floordiv (514 - 150) resolution;
  d ← py.floordiv q (Z.of_nat num_cores);
  mret (map (fun r : nat =>
               np.arange (150 + Z.of_nat r * d * resolution)
                         (150 + Z.of_nat r * d * resolution + d * resolution)
                         resolution)
            (seq 0 num_cores)).

(** [do_segmentation] without its dictionary: the component counts and the
    masks of one range of thresholds, in the order of the range. *)
Definition process_results (img_data : ndarray Z) (Imax : Z) (Imin_range : list Z)
  : list nat * list (ndarray Z) :=
  let img_res := map (fun i_min => SegmentationByTH img_data i_min Imax) Imin_range in
  let ccmps := map (fun img => snd (measure.label img)) img_res in
  (ccmps, img_res).

(** [do_segmentation]: the worker stores its results under its [pid]. *)
Definition do_segmentation (img_data : ndarray Z) (Imax : Z) (Imin_range : list Z)
    (dct : gmap nat (list nat * list (ndarray Z))) (pid : nat)
  : gmap nat (list nat * list (ndarray Z)) :=
  <[pid := process_results img_data Imax Imin_range]> dct.

(** The workers, finishing in the order [finished] (each a [pid] with the
    range it was given). *)
Definition run_processes (img_data : ndarray Z) (Imax : Z)
    (finished : list (nat * list Z)) : gmap nat (list nat * list (ndarray Z)) :=
  foldl (fun dct '(pid, rng) => do_segmentation img_data Imax rng dct pid) ∅ finished.

(** The loop over [range(num_cores)] that extends [cmps] and
    [img_threshold_result] with [results[p]]. *)
Fixpoint collect (results : gmap nat (list nat * list (ndarray Z))) (pids : list nat)
  : option (list nat * list (ndarray Z)) :=
  match pids with
  | [] => Some ([], [])
  | p :: rest =>
      '(pid_ccmps, pid_imgs) ← results !! p;
      '(cmps, imgs) ← collect results rest;
      Some (pid_ccmps ++ cmps, pid_imgs ++ imgs)
  end.

(** The scan up to the aggregated curve and the masks that go with it.
    A [pid] missing from the dictionary is a [KeyError]. *)
Definition aggregate (img_data : ndarray Z) (resolution Imax : Z) (num_cores : nat)
  : result (list nat * list (ndarray Z)) :=
  ranges ← _tasks_distribution resolution num_cores;
  let results := run_processes img_data Imax (zip (seq 0 num_cores) ranges) in
  match collect results (seq 0 num_cores) with
  | Some r => Ok r
  | None => Raise KeyError
  end.

(** The selection: [find_all_minima], then the mask at [_dips[0]].  (The
    histogram drawn in between changes nothing.) *)
Definition select_bones (cmps : list nat) (img_threshold_result : list (ndarray Z))
  : result (ndarray Z) :=
  let _dips := find_all_minima (map Z.of_nat cmps) in
  d ← py.index _dips 0;
  py.index img_threshold_result d.

Definition SkeletonTHFinder (img_data : ndarray Z) (resolution Imax : Z) (num_cores : nat)
  : result (ndarray Z) :=
  '(cmps, img_threshold_result) ← aggregate img_data resolution Imax num_cores;
  select_bones cmps img_threshold_result.

(** The aggregated component-count curve of the scan. *)
Definition component_curve (img_data : ndarray Z) (resolution Imax : Z) (num_cores : nat)
  : result (list nat) :=
  fst <$> aggregate img_data resolution Imax num_cores.

(** ** Largest-component selection, first half of [get_Nlargest_component] *)

(** [labels == np.argmax(np.bincount(labels.flat)[1:]) + 1], then
    [self.bones * largestCC]: the voxels of the most frequent non-zero
    label keep their value, the others become 0. *)
Definition largestCC_img (bones : ndarray Z) : result (ndarray Z) :=
  let labels := fst (measure.label bones) in
  k ← np.argmax (py.slice (Some 1) None (np.bincount (data labels)));
  let largestCC := amap (fun l => (l =? k + 1)%nat) labels in
  mret (azip (fun v (b : bool) => v * Z.b2z b) bones largestCC).

(** The selection followed by the closing pass. *)
Definition largest_component (bones : ndarray Z) : result (ndarray Z) :=
  morphology.closing <$> largestCC_img bones.

(** The number of connected components of a mask. *)
Definition num_components (mask : ndarray Z) : nat := snd (measure.label mask).

(** ** The pelvis locator *)

(** [a[idx]] with an array of positions: [IndexError] when one is out of
    range. *)
Fixpoint take_at {A} (a : list A) (idx : list nat) : result (list A) :=
  match idx with
  | [] => Ok []
  | i :: rest =>
      v ← py.index a i;
      vs ← take_at a rest;
      mret (v :: vs)
  end.

(** [a / b > 1.5] and [a / b < 1.5] for the true division of two
    non-negative integers in floating point: a zero divisor gives [inf]
    (or [nan] for [0 / 0], which compares false both ways).  On slice
    positions the rounding of the quotient cannot reach 1.5 from either
    side, so the comparisons are those of the exact quotient. *)
Definition ratio_gt_1_5 (a b : nat) : bool :=
  if (b =? 0)%nat then (0 <? a)%nat else (3 * b <? 2 * a)%nat.
Definition ratio_lt_1_5 (a b : nat) : bool :=
  if (b =? 0)%nat then false else (2 * a <? 3 * b)%nat.

(** The two loops of the refinement, over the consecutive pairs of a
    candidate array. *)
Fixpoint tighten_upper (upper_bounds : list nat) (upper_bound : nat) : nat :=
  match upper_bounds with
  | a :: (b :: _) as rest =>
      tighten_upper rest (if ratio_gt_1_5 a b then b else upper_bound)
  | _ => upper_bound
  end.

Fixpoint tighten_lower (lower_bounds : list nat) (lower_bound : nat) : nat :=
  match lower_bounds with
  | a :: (b :: _) as rest =>
      tighten_lower rest (if ratio_lt_1_5 a b then b else lower_bound)
  | _ => lower_bound
  end.

(** The loop shared by the two sides: [test a b] decides whether the
    pair moves the bound to [b]. *)
Fixpoint tighten (test : nat -> nat -> bool) (cands : list nat) (bound : nat) : nat :=
  match cands with
  | a :: (b :: _) as rest => tighten test rest (if test a b then b else bound)
  | _ => bound
  end.

(** A consecutive pair of candidates, by position in the array. *)
Definition pair_at (cands : list nat) (k a b : nat) : Prop :=
  cands !! k = Some a /\ cands !! S k = Some b.

(** The refinement as the specification words it: the ratio compared
    against 1.5 is that of the density values at the two candidates. *)
Fixpoint spec_tighten_upper (density : list Z) (cands : list nat) (bound : nat) : nat :=
  match cands with
  | a :: (b :: _) as rest =>
      spec_tighten_upper density rest
        (if 3 * nth b density 0 <? 2 * nth a density 0 then b else bound)
  | _ => bound
  end.

Fixpoint spec_tighten_lower (density : list Z) (cands : list nat) (bound : nat) : nat :=
  match cands with
  | a :: (b :: _) as rest =>
      spec_tighten_lower density rest
        (if 2 * nth a density 0 <? 3 * nth b density 0 then b else bound)
  | _ => bound
  end.

(** Lines 142 to 156: from the ordered valley candidates and the highest
    peak to the bounds.  [np.argwhere(cond)[0]] is the first row of the
    positions where [cond] holds, so each candidate array has one element. *)
Definition bounds_from (minimas : list nat) (x1_max : nat) : result (nat * nat) :=
  row ← py.index (np.where1 (map (fun m => (m <? x1_max)%nat) minimas)) 0;
  lower_bounds ← take_at minimas [row];
  row ← py.index (np.where1 (map (fun m => (x1_max <? m)%nat) minimas)) 0;
  upper_bounds ← take_at minimas [row];
  upper_bound ← py.index upper_bounds 0;
  lower_bound ← py.index lower_bounds 0;
  let upper_bound := tighten_upper upper_bounds upper_bound in
  let lower_bound := tighten_lower lower_bounds lower_bound in
  mret (lower_bound, upper_bound).

Section PelvisLocator.

(** [scipy.signal.find_peaks(x, distance=d)[0]]: positions of peaks. *)
Variable find_peaks : list Z -> nat -> list nat.

(** [np.argpartition(a, kth)]: positions of [a], partitioned around the
    [kth] smallest. *)
Variable argpartition : list Z -> Z -> result (list nat).

(** Line 139: the valleys [deeps], reordered by [argpartition] of the
    negated densities, reversed. *)
Definition valley_candidates (density : list Z) (deeps : list nat) : result (list nat) :=
  depths ← take_at density deeps;
  order ← argpartition (map (fun v => -1 * v) depths) (-2);
  take_at deeps (reverse order).

Definition find_suspected_pelvis_loc (density : list Z) : result (nat * nat) :=
  let peaks := find_peaks density 150 in
  let deeps := find_peaks (map (fun v => v * -1) density) 200 in
  heights ← take_at density peaks;
  order ← argpartition heights (-2);
  top ← take_at peaks (reverse (py.slice (Some (-2)) None order));
  match top with
  | [x1_max; x2_max] =>
      minimas ← valley_candidates density deeps;
      bounds_from minimas x1_max
  | _ => Raise ValueError
  end.

(** [np.sum(bin_res, axis=(0, 1))] of the indicator of [bones > 0]: the
    number of foreground voxels of each axial slice. *)
Definition axial_density (bones : ndarray Z) : list Z :=
  let '(nx, ny, nz) := shape bones in
  map (fun z =>
         foldr Z.add 0
           (map (fun xy : nat * nat => if 0 <? get 0 bones (xy.1, xy.2, z) then 1 else 0)
                (list_prod (seq 0 nx) (seq 0 ny))))
      (seq 0 nz).

Definition get_pelvis_ROI (bones : ndarray Z) : result (nat * nat) :=
  find_suspected_pelvis_loc (axial_density bones).

(** [img[:, :, lower:upper]]. *)
Definition crop_axial (img : ndarray Z) (lower upper : nat) : ndarray Z :=
  let '(nx, ny, nz) := shape img in
  let lo := Nat.min lower nz in
  let hi := Nat.min upper nz in
  tabulate (nx, ny, hi - lo)%nat (fun '(x, y, z) => get 0 img (x, y, (lo + z)%nat)).

(** The array that [get_Nlargest_component] saves. *)
Definition get_Nlargest_component (bones : ndarray Z) : result (ndarray Z) :=
  largestCC_img ← largest_component bones;
  '(lower_bound, upper_bound) ← get_pelvis_ROI bones;
  mret (crop_axial largestCC_img lower_bound upper_bound).

End PelvisLocator.

(** ** Reference behaviour of the two library calls *)

Module scipy_ref.

(** The look-ahead of [_local_maxima_1d]: the first position from
    [i_ahead] on that is [i_max] or holds a value other than [v]. *)
Fixpoint skip_equal (fuel : nat) (x : list Z) (v : Z) (i_max i_ahead : nat) : nat :=
  match fuel with
  | O => i_ahead
  | S f =>
      if (i_ahead <? i_max)%nat && (nth i_ahead x 0 =? v)
      then skip_equal f x v i_max (S i_ahead) else i_ahead
  end.

(** [_local_maxima_1d]: the midpoints of the strict maxima and of the
    flat ones, never the first or the last sample. *)
Fixpoint local_maxima (fuel : nat) (x : list Z) (i : nat) : list nat :=
  match fuel with
  | O => []
  | S f =>
      let i_max := (length x - 1)%nat in
      if (i <? i_max)%nat then
        if nth (i - 1) x 0 <? nth i x 0 then
          let i_ahead := skip_equal (length x) x (nth i x 0) i_max (S i) in
          if nth i_ahead x 0 <? nth i x 0
          then ((i + (i_ahead - 1)) / 2)%nat :: local_maxima f x (S i_ahead)
          else local_maxima f x (S i)
        else local_maxima f x (S i)
      else []
  end.

(** A stable [argsort], ascending. *)
Fixpoint insert_by (a : list Z) (i : nat) (sorted : list nat) : list nat :=
  match sorted with
  | [] => [i]
  | j :: rest =>
      if nth i a 0 <? nth j a 0 then i :: j :: rest else j :: insert_by a i rest
  end.
Definition argsort (a : list Z) : list nat :=
  foldr (insert_by a) [] (seq 0 (length a)).

Definition dist (a b : nat) : nat := ((a - b) + (b - a))%nat.

(** [_select_by_peak_distance]: from the highest peak down, a peak still
    kept removes every other peak closer than [distance]. *)
Definition suppress (peaks : list nat) (distance : nat) (keep : list bool) (j : nat)
  : list bool :=
  if nth j keep false
  then imap (fun k b =>
               if negb (k =? j)%nat && (dist (nth k peaks 0%nat) (nth j peaks 0%nat) <? distance)%nat
               then false else b) keep
  else keep.

Definition find_peaks (x : list Z) (distance : nat) : list nat :=
  let peaks := local_maxima (length x) x 1 in
  let priority := map (fun p => nth p x 0) peaks in
  let keep := foldl (suppress peaks distance) (replicate (length peaks) true)
                    (reverse (argsort priority)) in
  omap (fun pk : nat * bool => if pk.2 then Some pk.1 else None) (zip peaks keep).

(** An [argpartition] that sorts: [ValueError] when [kth] is out of
    bounds. *)
Definition argpartition (a : list Z) (kth : Z) : result (list nat) :=
  let n := Z.of_nat (length a) in
  let k := if kth <? 0 then kth + n else kth in
  if (k <? 0) || (n <=? k) then Raise ValueError else Ok (argsort a).

End scipy_ref.

(** ** Paths: [str.split] and [str.join] *)

Module pystr.

(** [s.split(sep)] for a one-character separator: the pieces between the
    separators, empty pieces included. *)
Fixpoint split (sep : ascii) (s : list ascii) : list (list ascii) :=
  match s with
  | [] => [[]]
  | c :: rest =>
      if decide (c = sep) then [] :: split sep rest
      else match split sep rest with
           | piece :: pieces => (c :: piece) :: pieces
           | [] => [[c]]
           end
  end.

(** [sep.join(pieces)]. *)
Fixpoint join (sep : list ascii) (pieces : list (list ascii)) : list ascii :=
  match pieces with
  | [] => []
  | p :: rest =>
      match rest with
      | [] => p
      | _ => p ++ sep ++ join sep rest
      end
  end.

End pystr.

Definition NIFTI : list ascii := String.list_ascii_of_string "nii".

(** [True if file_path.split('.').__contains__(NIFTI) else False]. *)
Definition isNIFTI (file_path : list ascii) : bool :=
  bool_decide (NIFTI ∈ pystr.split "."%char file_path).

(** What [_read_file] asks of the libraries: [nib.load] of the path, or
    [dcmstack.parse_and_stack] of the files that match a [glob] pattern. *)
Inductive load_request : Set :=
  | NibLoad (file_path : list ascii)
  | DcmStack (pattern : list ascii).

Definition _read_file (is_nifti : bool) (file_path : list ascii) : load_request :=
  if is_nifti then NibLoad file_path
  else
    let file := py.slice None (Some (-1)) (pystr.split "/"%char file_path) in
    DcmStack (pystr.join (String.list_ascii_of_string "/") file ++ String.list_ascii_of_string "/*.dcm").

(** ** The object: [__init__] and [transform_to_hu] *)

(** [np.min(a)] and [np.max(a)]: [ValueError] on an empty array. *)
Definition array_min (a : list nat) : result nat :=
  match a with
  | [] => Raise ValueError
  | x :: rest => Ok (foldr Nat.min x rest)
  end.

Definition array_max (a : list nat) : result nat :=
  match a with
  | [] => Raise ValueError
  | x :: rest => Ok (foldr Nat.max x rest)
  end.

(** The third array of [np.nonzero(img_data)]: the axial position of each
    non-zero voxel, in C order. *)
Definition nonzero_z (img_data : ndarray Z) : list nat :=
  let '(nx, ny, nz) := shape img_data in
  omap (fun i : nat => if nth i (data img_data) 0 =? 0 then None else Some (i mod nz)%nat)
       (seq 0 (size (shape img_data))).

Module PreProcessor.

(** The attributes of the object that the methods read or write.  The
    header maps a key to an integer-valued number. *)
Record state : Type := mk_state {
  resolution : Z;
  _dips : list nat;
  is_nifti : bool;
  img_header : gmap string Z;
  img_data : ndarray Z;
  bottom_bound_slice : nat;
  top_bound_slice : nat;
  bones : option (ndarray Z);
  Imax : Z
}.

(** [__init__], given the volume that [getImageData] returns for the
    file. *)
Definition __init__ (file_path : list ascii) (resolution Imax : Z) (volume : ndarray Z)
  : result state :=
  let z_slices := nonzero_z volume in
  bottom ← array_min z_slices;
  top ← array_max z_slices;
  mret (mk_state resolution [] (isNIFTI file_path) ∅ volume bottom top None Imax).

(** [transform_to_hu]: the state it leaves and how it ends.  The two
    in-place updates are separate statements, each after its own lookup
    in the header. *)
Definition transform_to_hu (self : state) : state * result unit :=
  let update (img : ndarray Z) :=
    mk_state (resolution self) (_dips self) (is_nifti self) (img_header self) img
             (bottom_bound_slice self) (top_bound_slice self) (bones self) (Imax self) in
  match img_header self !! "slope"%string with
  | None => (self, Raise KeyError)
  | Some slope =>
      let scaled := amap (fun v => v * slope) (img_data self) in
      match img_header self !! "inter"%string with
      | None => (update scaled, Raise KeyError)
      | Some inter => (update (amap (fun v => v + inter) scaled), Ok tt)
      end
  end.

End PreProcessor.

(** ** The histogram marks, [_get_intensities_hist] *)

(** The list [d] of the title: [opt_thresh * 10 + 150] for each dip. *)
Definition marked_thresholds (_dips : list nat) : list Z :=
  map (fun opt_thresh : nat => Z.of_nat opt_thresh * 10 + 150) _dips.

(** ** One case of the batch *)

(** [extract_pelvis_bone]: the scan, whose mask becomes [self.bones]. *)
Definition extract_pelvis_bone (self : PreProcessor.state) (num_cores : nat)
  : result (ndarray Z) :=
  SkeletonTHFinder (PreProcessor.img_data self) (PreProcessor.resolution self)
                   (PreProcessor.Imax self) num_cores.

Section Case.

Variable find_peaks : list Z -> nat -> list nat.
Variable argpartition : list Z -> Z -> result (list nat).

(** The body of the loop of [__main__] for one file, with the default
    resolution and intensity cap: the volume saved as
    [out_largestCC.nii.gz]. *)
Definition run_case (file_path : list ascii) (volume : ndarray Z) (num_cores : nat)
  : result (ndarray Z) :=
  ob ← PreProcessor.__init__ file_path 10 1300 volume;
  bones ← extract_pelvis_bone ob num_cores;
  get_Nlargest_component find_peaks argpartition bones.

End Case.

(** ** Comparing masks *)

(** A coordinate inside a shape. *)
Definition inside (sh : nat * nat * nat) (p : coord) : Prop :=
  let '(nx, ny, nz) := sh in
  let '(x, y, z) := p in (x < nx)%nat /\ (y < ny)%nat /\ (z < nz)%nat.

(** [below a b]: two arrays of one shape, the first nowhere above the
    second.  On masks: every foreground voxel of the first is a
    foreground voxel of the second. *)
Definition below (a b : ndarray Z) : Prop :=
  shape a = shape b /\ forall p, inside (shape a) p -> get 0 a p <= get 0 b p.

(** ** Concrete inputs *)

(** A density profile of 520 slices: peaks at 100 (the highest) and 400,
    valleys at 50 and 300. *)
Definition two_peak_profile : list Z :=
  map (fun i : nat =>
         let z := Z.of_nat i in
         if z <? 50 then 200 - z
         else if z <? 100 then 150 + 5 * (z - 50)
         else if z <? 300 then 400 - 2 * (z - 100)
         else if z <? 400 then 3 * (z - 300)
         else 700 - z)
      (seq 0 520).

(** A density profile of 800 slices: peaks at 170, 450 (the highest) and
    700; valleys at 50 (density 120), 300 (density 100) and 600 (density
    250). *)
Definition three_valley_profile : list Z :=
  map (fun i : nat =>
         let z := Z.of_nat i in
         if z <? 50 then 220 - 2 * z
         else if z <? 170 then 120 + 2 * (z - 50)
         else if z <? 300 then 360 - 2 * (z - 170)
         else if z <? 450 then 100 + 4 * (z - 300)
         else if z <? 600 then 700 - 3 * (z - 450)
         else if z <? 700 then 250 + 2 * (z - 600)
         else 450 - 2 * (z - 700))
      (seq 0 800).

(** A mask of shape (1, 3, 520) whose axial density is 2 up to slice 39,
    1 on slices 40 to 60, 3 on slices 61 to 139, 2 up to slice 279, 0 on
    slices 280 to 320, 2 on slices 321 to 479 and 1 from there on. *)
Definition slab_density (z : nat) : nat :=
  if (z <? 40)%nat then 2
  else if (z <? 61)%nat then 1
  else if (z <? 140)%nat then 3
  else if (z <? 280)%nat then 2
  else if (z <? 321)%nat then 0
  else if (z <? 480)%nat then 2
  else 1.
Definition slab_mask : ndarray Z :=
  tabulate (1, 3, 520)%nat
    (fun '(x, y, z) => if (y <? slab_density z)%nat then MAX_VOXEL_VALUE else 0).

(** A density profile of 600 slices with the value 30 at slices 40 and
    300, 10 at slices 250 and 550, and 100 elsewhere. *)
Definition steep_profile : list Z :=
  map (fun i : nat =>
         if (i =? 40)%nat || (i =? 300)%nat then 30
         else if (i =? 250)%nat || (i =? 550)%nat then 10
         else 100)
      (seq 0 600).

(** A line of 22 voxels: a block of bone with a softer middle, a gap, and
    a small block of value 155.  The scan counts 2, 1, 2, 2, ...
    components. *)
Definition dip_volume : ndarray Z :=
  mk_ndarray (1, 1, 22)%nat
    [0; 0; 1000; 1000; 1000; 165; 165; 165; 1000; 1000; 1000; 0; 0; 0;
     155; 155; 155; 0; 0; 0; 0; 0].

(** A line of 22 voxels: bone at the edge, a gap, a block of bone with a
    softer middle, a gap, a small block of value 155, a gap.  The scan
    counts 3, 2, 3, 3, ... components. *)
Definition blob_volume : ndarray Z :=
  mk_ndarray (1, 1, 22)%nat
    [1000; 1000; 0; 0; 0; 1000; 1000; 1000; 165; 165; 165; 1000; 1000; 1000; 0; 0; 0;
     155; 155; 155; 0; 0].

(** A peak finder without the distance filter. *)
Definition every_peak (x : list Z) (distance : nat) : list nat :=
  scipy_ref.find_peaks x 1.

(** A 3 x 3 ring around one background voxel. *)
Definition ring3 : ndarray Z :=
  mk_ndarray (3, 3, 1)%nat
    [65535; 65535; 65535; 65535; 0; 65535; 65535; 65535; 65535].

(** * Properties *)

(** ** The model on small inputs *)

Example slice_inner : py.slice (Some 1) (Some (-1)) [40; 30; 35; 50; 10; 20] = [30; 35; 50; 10].
Proof. reflexivity. Qed.

Example arange_chunk : np.arange 190 230 10 = [190; 200; 210; 220].
Proof. reflexivity. Qed.

Example tasks_distribution_3_cores :
  _tasks_distribution 100 3 = Ok [[150]; [250]; [350]].
Proof. reflexivity. Qed.

Example tasks_distribution_zero_resolution :
  _tasks_distribution 0 3 = Raise ZeroDivisionError.
Proof. reflexivity. Qed.

(** Two voxels that meet at a corner are one component; voxels two steps
    apart are not. *)
Example label_corner :
  measure.label (mk_ndarray (2, 2, 2)%nat [9; 0; 0; 0; 0; 0; 0; 9])
  = (mk_ndarray (2, 2, 2)%nat [1; 0; 0; 0; 0; 0; 0; 1]%nat, 1%nat).
Proof. reflexivity. Qed.

Example label_line :
  measure.label (mk_ndarray (1, 1, 6)%nat [7; 7; 0; 7; 0; 7])
  = (mk_ndarray (1, 1, 6)%nat [1; 1; 0; 2; 0; 3]%nat, 3%nat).
Proof. reflexivity. Qed.

(** Neighbours of different values are different components. *)
Example label_values :
  measure.label (mk_ndarray (1, 1, 4)%nat [5; 5; 8; 8])
  = (mk_ndarray (1, 1, 4)%nat [1; 1; 2; 2]%nat, 2%nat).
Proof. reflexivity. Qed.

(** The opening removes a lone voxel; the closing bridges a one-voxel gap. *)
Example opening_removes_speck :
  morphology.opening (mk_ndarray (1, 1, 5)%nat [0; 0; 9; 0; 0])
  = mk_ndarray (1, 1, 5)%nat [0; 0; 0; 0; 0].
Proof. reflexivity. Qed.

Example closing_bridges_gap :
  morphology.closing (mk_ndarray (1, 1, 5)%nat [9; 9; 0; 9; 9])
  = mk_ndarray (1, 1, 5)%nat [9; 9; 9; 9; 9].
Proof. reflexivity. Qed.

Example segmentation_window :
  SegmentationByTH
    (mk_ndarray (1, 1, 9)%nat [0; 100; 250; 300; 1300; 1301; 200; 0; 0]) 200 1300
  = mk_ndarray (1, 1, 9)%nat [0; 0; 65535; 65535; 65535; 0; 0; 0; 0].
Proof. reflexivity. Qed.

Example largestCC_img_line :
  largestCC_img (mk_ndarray (1, 1, 6)%nat [7; 0; 0; 7; 7; 7])
  = Ok (mk_ndarray (1, 1, 6)%nat [0; 0; 0; 7; 7; 7]).
Proof. reflexivity. Qed.

(** Flat maxima count once, at their midpoint; a higher peak removes the
    lower peaks closer than the distance. *)
Example find_peaks_plateaus :
  scipy_ref.find_peaks [0; 1; 1; 1; 0; 2; 0; 3; 3; 0; 5] 1 = [2; 5; 7]%nat /\
  scipy_ref.find_peaks [0; 1; 1; 1; 0; 2; 0; 3; 3; 0; 5] 3 = [2; 7]%nat.
Proof. split; reflexivity. Qed.

Example locate_two_peaks :
  find_suspected_pelvis_loc scipy_ref.find_peaks scipy_ref.argpartition two_peak_profile
  = Ok (50, 300)%nat.
Proof. vm_compute. reflexivity. Qed.

(** With one peak only, [argpartition] has no second-largest to place. *)
Example locate_one_peak :
  find_suspected_pelvis_loc scipy_ref.find_peaks scipy_ref.argpartition [0; 1; 2; 1; 0]
  = Raise ValueError.
Proof. reflexivity. Qed.

(** ** The result monad *)

Lemma bind_Ok {A B} (m : result A) (f : A -> result B) (b : B) :
  m ≫= f = Ok b -> exists a, m = Ok a /\ f a = Ok b.
Proof. destruct m as [a|e]; [eauto | discriminate]. Qed.

Lemma index_Ok {A} (l : list A) (i : nat) (a : A) :
  py.index l i = Ok a <-> l !! i = Some a.
Proof. unfold py.index. destruct (l !! i); split; congruence. Qed.

(** ** The dip detector *)

Lemma elem_of_where_from (mask : list bool) (i j : nat) :
  j ∈ np.where_from i mask <-> (i <= j)%nat /\ mask !! (j - i)%nat = Some true.
Proof.
  revert i. induction mask as [|b mask IH]; intros i; simpl.
  - rewrite elem_of_nil. split; [tauto | intros [_ H]; discriminate H].
  - assert (Hrest : j ∈ np.where_from (S i) mask <->
                    (i < j)%nat /\ mask !! (j - S i)%nat = Some true).
    { rewrite IH. split; intros [? ?]; split; auto; lia. }
    destruct (decide (j = i)) as [->|Hne].
    + replace (i - i)%nat with 0%nat by lia. simpl.
      destruct b; [rewrite elem_of_cons|]; rewrite Hrest.
      * split; [intros _; split; [lia | done] | intros _; by left].
      * split; [intros [? _]; lia | intros [_ H]; discriminate H].
    + assert (Hstep : (i <= j)%nat -> (j - i)%nat = S (j - S i)) by lia.
      destruct b; [rewrite elem_of_cons|]; rewrite Hrest; split.
      * intros [?|[? ?]]; [done|]. split; [lia|]. rewrite Hstep by lia. done.
      * intros [? H]. right. split; [lia|]. rewrite Hstep in H by lia. done.
      * intros [? ?]. split; [lia|]. rewrite Hstep by lia. done.
      * intros [? H]. split; [lia|]. rewrite Hstep in H by lia. done.
Qed.

Lemma elem_of_where1 (mask : list bool) (j : nat) :
  j ∈ np.where1 mask <-> mask !! j = Some true.
Proof.
  unfold np.where1. rewrite elem_of_where_from.
  replace (j - 0)%nat with j by lia. split; [tauto | split; [lia | done]].
Qed.

Lemma slice_inner_lookup (c : list Z) (j : nat) :
  py.slice (Some 1) (Some (-1)) c !! j =
  if decide (j + 2 < length c)%nat then c !! S j else None.
Proof.
  unfold py.slice, py.clip. simpl from_option.
  case_decide as Hj.
  - rewrite lookup_take_lt by lia. rewrite lookup_drop. f_equal. lia.
  - apply lookup_ge_None. rewrite length_take, length_drop. lia.
Qed.

Lemma slice_left_lookup (c : list Z) (j : nat) :
  py.slice (Some 0) (Some (-2)) c !! j =
  if decide (j + 2 < length c)%nat then c !! j else None.
Proof.
  unfold py.slice, py.clip. simpl from_option.
  case_decide as Hj.
  - rewrite lookup_take_lt by lia. rewrite lookup_drop. f_equal. lia.
  - apply lookup_ge_None. rewrite length_take, length_drop. lia.
Qed.

Lemma slice_right_lookup (c : list Z) (j : nat) :
  py.slice (Some 2) None c !! j = c !! (j + 2)%nat.
Proof.
  unfold py.slice, py.clip. simpl from_option.
  destruct (decide (j + 2 < length c)%nat) as [Hj|Hj].
  - rewrite lookup_take_lt by lia. rewrite lookup_drop. f_equal. lia.
  - rewrite (lookup_ge_None_2 c) by lia.
    apply lookup_ge_None. rewrite length_take, length_drop. lia.
Qed.

(** The positions that [find_all_minima] stores are those of the strict
    interior minima, each less one. *)
Lemma elem_of_find_all_minima (c : list Z) (j : nat) :
  j ∈ find_all_minima c <-> strict_interior_min c (S j).
Proof.
  unfold find_all_minima, strict_interior_min, np.mul_bool, np.less.
  rewrite elem_of_where1, lookup_zip_with_Some.
  setoid_rewrite lookup_zip_with_Some.
  setoid_rewrite slice_inner_lookup.
  setoid_rewrite slice_left_lookup.
  setoid_rewrite slice_right_lookup.
  replace (S j - 1)%nat with j by lia.
  replace (S j + 1)%nat with (j + 2)%nat by lia.
  split.
  - intros (b1 & b2 & Hb & (m & a & -> & Hm & Ha) & (m' & b & -> & Hm' & Hb')).
    case_decide as Hj; [|discriminate].
    assert (m' = m) as -> by congruence.
    symmetry in Hb. apply andb_true_iff in Hb as [H1 H2].
    apply Z.ltb_lt in H1, H2.
    split; [lia|]. split; [lia|]. exists a, m, b. done.
  - intros (_ & Hlen & a & m & b & Ha & Hm & Hb & H1 & H2).
    exists true, true. split; [done|].
    split; [exists m, a | exists m, b]; rewrite ?decide_True by lia.
    all: (split; [symmetry; by apply Z.ltb_lt | by split]).
Qed.

Lemma find_all_minima_nil_iff (c : list Z) :
  find_all_minima c = [] <-> forall i, ~ strict_interior_min c i.
Proof.
  split.
  - intros Hnil [|j] Hmin.
    + destruct Hmin as [? _]. lia.
    + apply elem_of_find_all_minima in Hmin. rewrite Hnil in Hmin.
      by apply elem_of_nil in Hmin.
  - intros Hno. destruct (find_all_minima c) as [|j l] eqn:E; [done|].
    exfalso. apply (Hno (S j)), elem_of_find_all_minima.
    rewrite E. by left.
Qed.

(** C1, on the scenario of the specification.  For the curve
    [40, 30, 35, 50, 10, 20] the strict interior minima are at positions 1
    and 4, but [find_all_minima] stores [0, 3] (positions in the slice
    [minimas[1:-1]]), so the mask selected is the one at position 0, which
    is not a dip. *)
Theorem find_all_minima_off_by_one :
  let curve := [40; 30; 35; 50; 10; 20] in
  find_all_minima curve = [0%nat; 3%nat] /\
  (forall i, strict_interior_min curve i <-> i = 1%nat \/ i = 4%nat) /\
  (forall imgs : list (ndarray Z),
     select_bones [40; 30; 35; 50; 10; 20]%nat imgs = py.index imgs 0).
Proof.
  intros curve. split; [reflexivity|]. split; [|reflexivity].
  intros i. split.
  - destruct i as [|j]; [intros [? _]; lia|].
    rewrite <- elem_of_find_all_minima.
    change (find_all_minima curve) with [0%nat; 3%nat].
    rewrite !elem_of_cons, elem_of_nil. lia.
  - intros [->| ->]; apply elem_of_find_all_minima;
      change (find_all_minima curve) with [0%nat; 3%nat];
      rewrite !elem_of_cons; auto.
Qed.

(** ** The selection of the scan *)

Lemma select_bones_no_dip (cmps : list nat) (imgs : list (ndarray Z)) :
  (forall i, ~ strict_interior_min (map Z.of_nat cmps) i) ->
  select_bones cmps imgs = Raise IndexError.
Proof.
  intros Hno. unfold select_bones.
  apply find_all_minima_nil_iff in Hno. rewrite Hno. reflexivity.
Qed.

(** C6, as the code has it.  When the aggregated curve has no strict
    interior minimum the scan fails, and the failure is the [IndexError]
    of [self._dips[0]] on the empty dip array. *)
Theorem SkeletonTHFinder_no_dip_IndexError
    (img_data : ndarray Z) (resolution Imax : Z) (num_cores : nat) (curve : list nat) :
  component_curve img_data resolution Imax num_cores = Ok curve ->
  (forall i, ~ strict_interior_min (map Z.of_nat curve) i) ->
  SkeletonTHFinder img_data resolution Imax num_cores = Raise IndexError.
Proof.
  unfold component_curve, SkeletonTHFinder.
  destruct (aggregate img_data resolution Imax num_cores) as [[cmps imgs]|e];
    simpl; [|discriminate].
  intros [= <-] Hno. by apply select_bones_no_dip.
Qed.

Lemma SkeletonTHFinder_no_dip_IndexError_witness :
  SkeletonTHFinder (mk_ndarray (1, 1, 1)%nat [0]) 10 1300 8 = Raise IndexError.
Proof.
  apply (SkeletonTHFinder_no_dip_IndexError _ _ _ _ (replicate 32 0%nat)).
  - vm_compute. reflexivity.
  - apply find_all_minima_nil_iff. vm_compute. reflexivity.
Defined.

(** C6 as the specification states it fails: on a one-voxel background
    volume the curve is constant, it has no dip, and the scan ends in
    [IndexError], which is not the [NoThresholdFound] condition. *)
Lemma SkeletonTHFinder_not_NoThresholdFound :
  let img_data := mk_ndarray (1, 1, 1)%nat [0] in
  component_curve img_data 10 1300 8 = Ok (replicate 32 0%nat) /\
  (forall i, ~ strict_interior_min (map Z.of_nat (replicate 32 0%nat)) i) /\
  SkeletonTHFinder img_data 10 1300 8 = Raise IndexError /\
  SkeletonTHFinder img_data 10 1300 8 <> Raise NoThresholdFound.
Proof.
  intros img_data. split; [vm_compute; reflexivity|].
  split; [apply find_all_minima_nil_iff; vm_compute; reflexivity|].
  split; [vm_compute; reflexivity|].
  vm_compute. discriminate.
Qed.

(** ** The thresholding step *)

Lemma threshold_voxel (Imin Imax c : Z) :
  0 <= c < 65536 ->
  clear_below_max (mark_window Imin Imax c) =
  if decide (Imin < c <= Imax \/ c = 65535) then MAX_VOXEL_VALUE else 0.
Proof.
  intros Hc. unfold clear_below_max, mark_window, MAX_VOXEL_VALUE.
  destruct (Z.leb_spec c Imax), (Z.gtb_spec c Imin); simpl;
    case_decide; try destruct (Z.ltb_spec c 65535); lia.
Qed.

Lemma threshold_step_lookup (img_data : ndarray Z) (Imin Imax : Z) (i : nat) :
  data (threshold_step img_data Imin Imax) !! i =
  (fun v => clear_below_max (mark_window Imin Imax (np.uint16 v))) <$> data img_data !! i.
Proof.
  unfold threshold_step, amap. simpl. rewrite !list_lookup_fmap.
  by destruct (data img_data !! i).
Qed.






(** A voxel of value 65535 (or -1, which the cast turns into 65535) is
    outside the window (200, 1300], yet it ends as [MAX_VOXEL_VALUE]: the
    second assignment clears only what is below [MAX_VOXEL_VALUE]. *)
Lemma threshold_step_keeps_65535 :
  ~ (200 < 65535 <= 1300) /\ ~ (200 < -1 <= 1300) /\
  threshold_step (mk_ndarray (1, 1, 2)%nat [65535; -1]) 200 1300
    = mk_ndarray (1, 1, 2)%nat [MAX_VOXEL_VALUE; MAX_VOXEL_VALUE].
Proof. split; [lia|]. split; [lia | reflexivity]. Qed.

(** C5, on a volume whose samples are all 65535 (or all -1, which the
    cast turns into 65535) with the degenerate window (200, 200]: the
    result is all foreground, not all zero. *)
Theorem SegmentationByTH_degenerate_not_zero :
  SegmentationByTH (mk_ndarray (2, 2, 2)%nat (replicate 8 65535)) 200 200
    = mk_ndarray (2, 2, 2)%nat (replicate 8 MAX_VOXEL_VALUE) /\
  SegmentationByTH (mk_ndarray (2, 2, 2)%nat (replicate 8 (-1))) 200 200
    = mk_ndarray (2, 2, 2)%nat (replicate 8 MAX_VOXEL_VALUE) /\
  ~ all_zero (SegmentationByTH (mk_ndarray (2, 2, 2)%nat (replicate 8 65535)) 200 200).
Proof.
  split; [vm_compute; reflexivity|]. split; [vm_compute; reflexivity|].
  intros H. vm_compute in H. inversion H as [|? ? H0 _]. discriminate H0.
Qed.

(** ** The aggregation of the scan *)

Section Aggregation.

Variable img_data : ndarray Z.
Variable Imax : Z.

Let pr := process_results img_data Imax.
Let entry (w : nat * list Z) : nat * (list nat * list (ndarray Z)) := (w.1, pr w.2).

Lemma run_processes_foldr (finished : list (nat * list Z))
    (dct : gmap nat (list nat * list (ndarray Z))) :
  foldl (fun dct '(pid, rng) => do_segmentation img_data Imax rng dct pid) dct finished
  = foldr (fun p m => <[p.1 := p.2]> m) dct (reverse (entry <$> finished)).
Proof.
  revert dct. induction finished as [|[pid rng] l IH]; intros dct; [done|].
  simpl. rewrite IH, reverse_cons, foldr_app. done.
Qed.

Lemma run_processes_list_to_map (finished : list (nat * list Z)) :
  run_processes img_data Imax finished = list_to_map (reverse (entry <$> finished)).
Proof. unfold run_processes. by rewrite run_processes_foldr. Qed.

Lemma entry_keys (finished : list (nat * list Z)) :
  (entry <$> finished).*1 = finished.*1.
Proof. rewrite <- list_fmap_compose. by apply list_fmap_ext. Qed.

(** Each worker's results are found under its [pid], whatever the order
    in which the workers finish. *)
Lemma run_processes_lookup (finished : list (nat * list Z)) (pid : nat) (rng : list Z) :
  NoDup finished.*1 -> (pid, rng) ∈ finished ->
  run_processes img_data Imax finished !! pid = Some (pr rng).
Proof.
  intros Hnd Hin. rewrite run_processes_list_to_map.
  apply elem_of_list_to_map_1.
  - by rewrite fmap_reverse, entry_keys, reverse_Permutation.
  - rewrite elem_of_reverse. apply (list_elem_of_fmap_2 entry _ _ Hin).
Qed.

Lemma run_processes_schedule (finished finished' : list (nat * list Z)) :
  NoDup finished.*1 -> finished ≡ₚ finished' ->
  run_processes img_data Imax finished = run_processes img_data Imax finished'.
Proof.
  intros Hnd Hperm. rewrite !run_processes_list_to_map.
  apply list_to_map_proper.
  - by rewrite fmap_reverse, entry_keys, reverse_Permutation.
  - by rewrite !reverse_Permutation, Hperm.
Qed.

Lemma process_results_app (r1 r2 : list Z) :
  pr (r1 ++ r2) = ((pr r1).1 ++ (pr r2).1, (pr r1).2 ++ (pr r2).2).
Proof. unfold pr, process_results. simpl. by rewrite !List.map_app. Qed.

Lemma collect_all (results : gmap nat (list nat * list (ndarray Z)))
    (ranges : list (list Z)) (s : nat) :
  (forall k rng, ranges !! k = Some rng -> results !! (s + k)%nat = Some (pr rng)) ->
  collect results (seq s (length ranges)) = Some (pr (concat ranges)).
Proof.
  revert s. induction ranges as [|r rs IH]; intros s Hall; [done|].
  pose proof (Hall 0%nat r eq_refl) as H0. rewrite Nat.add_0_r in H0.
  simpl. rewrite H0, (IH (S s)).
  - simpl. rewrite process_results_app. reflexivity.
  - intros k rng Hk. replace (S s + k)%nat with (s + S k)%nat by lia.
    by apply Hall.
Qed.

Lemma zip_seq_keys (ranges : list (list Z)) :
  (zip (seq 0 (length ranges)) ranges).*1 = seq 0 (length ranges).
Proof. apply fst_zip. by rewrite length_seq. Qed.

(** The merged results are those of one sequential pass over the
    dispatched thresholds, in order. *)
Lemma aggregate_sequential (resolution : Z) (num_cores : nat) :
  aggregate img_data resolution Imax num_cores
  = (fun ranges => pr (concat ranges)) <$> _tasks_distribution resolution num_cores.
Proof.
  unfold aggregate.
  destruct (_tasks_distribution resolution num_cores) as [ranges|e] eqn:E; [|done].
  assert (Hlen : length ranges = num_cores).
  { unfold _tasks_distribution in E.
    destruct (py.floordiv (514 - 150) resolution) as [q|]; [|discriminate].
    simpl in E. destruct (py.floordiv q (Z.of_nat num_cores)); [|discriminate].
    injection E as <-. by rewrite length_map, length_seq. }
  simpl. rewrite <- Hlen, collect_all; [done|].
  intros k rng Hk. apply run_processes_lookup.
  - rewrite zip_seq_keys. apply NoDup_seq.
  - apply list_elem_of_lookup. exists k. apply lookup_zip_with_Some.
    exists k, rng. split; [done|]. split; [|done].
    apply lookup_seq. split; [done|]. by apply lookup_lt_Some in Hk.
Qed.

Lemma process_results_length (l : list Z) : length (pr l).1 = length l.
Proof. unfold pr, process_results. simpl. by rewrite !length_map. Qed.

(** The length of the curve is the number of dispatched thresholds; it
    does not depend on the volume. *)
Lemma component_curve_length (resolution : Z) (num_cores : nat) :
  length <$> component_curve img_data resolution Imax num_cores
  = (fun ranges => length (concat ranges)) <$> _tasks_distribution resolution num_cores.
Proof.
  unfold component_curve. rewrite aggregate_sequential.
  destruct (_tasks_distribution resolution num_cores); [|done].
  simpl. f_equal. apply process_results_length.
Qed.

End Aggregation.

(** C2, at the default resolution 10.  The number of thresholds
    dispatched, and with it the length of the curve, changes with the
    number of cores: 36 entries on one core (thresholds 150 to 500), 32 on
    eight cores (150 to 460) and none on 64 cores. *)
Theorem component_curve_length_depends_on_cores (img_data : ndarray Z) (Imax : Z) :
  length <$> component_curve img_data 10 Imax 1 = Ok 36%nat /\
  length <$> component_curve img_data 10 Imax 8 = Ok 32%nat /\
  length <$> component_curve img_data 10 Imax 64 = Ok 0%nat.
Proof.
  rewrite !component_curve_length. repeat split; vm_compute; reflexivity.
Qed.

(** ** The refinement loops of the pelvis locator *)

Lemma ratio_gt_1_5_spec (a b : nat) : ratio_gt_1_5 a b = true <-> (3 * b < 2 * a)%nat.
Proof.
  unfold ratio_gt_1_5. destruct (Nat.eqb_spec b 0) as [->|Hb].
  - rewrite Nat.ltb_lt. lia.
  - apply Nat.ltb_lt.
Qed.

Lemma ratio_lt_1_5_spec (a b : nat) : ratio_lt_1_5 a b = true <-> (2 * a < 3 * b)%nat.
Proof.
  unfold ratio_lt_1_5. destruct (Nat.eqb_spec b 0) as [->|Hb].
  - split; [discriminate | lia].
  - apply Nat.ltb_lt.
Qed.

Section Tighten.

Variable test : nat -> nat -> bool.

Lemma tighten_stays (cands : list nat) (bound : nat) :
  (forall k a b, cands !! k = Some a -> cands !! S k = Some b -> test a b = false) ->
  tighten test cands bound = bound.
Proof.
  revert bound. induction cands as [|a [|b rest] IH]; intros bound Hno; [done..|].
  change (tighten test (a :: b :: rest) bound) with
    (tighten test (b :: rest) (if test a b then b else bound)).
  rewrite (Hno 0%nat a b eq_refl eq_refl). apply IH.
  intros k a' b' Ha' Hb'. by apply (Hno (S k)).
Qed.

Lemma tighten_last (cands : list nat) (bound : nat) (k a b : nat) :
  cands !! k = Some a -> cands !! S k = Some b -> test a b = true ->
  (forall k' a' b', (k < k')%nat -> cands !! k' = Some a' -> cands !! S k' = Some b' ->
                    test a' b' = false) ->
  tighten test cands bound = b.
Proof.
  revert bound k. induction cands as [|a0 [|b0 rest] IH]; intros bound k Ha Hb Ht Hlater.
  - done.
  - destruct k; discriminate.
  - change (tighten test (a0 :: b0 :: rest) bound) with
      (tighten test (b0 :: rest) (if test a0 b0 then b0 else bound)).
    destruct k as [|k].
    + simpl in Ha, Hb. injection Ha as ->. injection Hb as ->. rewrite Ht.
      apply tighten_stays. intros k a' b' Ha' Hb'.
      apply (Hlater (S k)); [lia|done..].
    + apply (IH _ k); [done..|].
      intros k' a' b' Hk Ha' Hb'. apply (Hlater (S k')); [lia|done..].
Qed.

End Tighten.

Lemma tighten_upper_eq (cands : list nat) (bound : nat) :
  tighten_upper cands bound = tighten ratio_gt_1_5 cands bound.
Proof.
  revert bound. induction cands as [|a [|b rest] IH]; intros bound; [done..|].
  apply IH.
Qed.

Lemma tighten_lower_eq (cands : list nat) (bound : nat) :
  tighten_lower cands bound = tighten ratio_lt_1_5 cands bound.
Proof.
  revert bound. induction cands as [|a [|b rest] IH]; intros bound; [done..|].
  apply IH.
Qed.

(** C3, as the code has it.  The quantity compared against 1.5 is the
    ratio [a / b] of the two candidates themselves, which are slice
    positions: the upper loop ends at the farther candidate [b] of the
    last pair with [a / b > 1.5] (that is [3 b < 2 a]), the lower loop at
    the farther candidate of the last pair with [a / b < 1.5] (that is
    [2 a < 3 b]), and a loop in which no pair qualifies leaves the bound
    as it was. *)
Theorem tighten_by_position_ratio (cands : list nat) (bound : nat) :
  ((forall k a b, pair_at cands k a b -> ~ (3 * b < 2 * a)%nat) ->
   tighten_upper cands bound = bound) /\
  (forall k a b, pair_at cands k a b -> (3 * b < 2 * a)%nat ->
     (forall k' a' b', (k < k')%nat -> pair_at cands k' a' b' -> ~ (3 * b' < 2 * a')%nat) ->
     tighten_upper cands bound = b) /\
  ((forall k a b, pair_at cands k a b -> ~ (2 * a < 3 * b)%nat) ->
   tighten_lower cands bound = bound) /\
  (forall k a b, pair_at cands k a b -> (2 * a < 3 * b)%nat ->
     (forall k' a' b', (k < k')%nat -> pair_at cands k' a' b' -> ~ (2 * a' < 3 * b')%nat) ->
     tighten_lower cands bound = b).
Proof.
  rewrite tighten_upper_eq, tighten_lower_eq. unfold pair_at. repeat split.
  - intros Hno. apply tighten_stays. intros k a b Ha Hb.
    apply not_true_is_false. rewrite ratio_gt_1_5_spec. by apply (Hno k).
  - intros k a b [Ha Hb] Hr Hlater. apply (tighten_last _ _ _ k a); [done..| |].
    + by apply ratio_gt_1_5_spec.
    + intros k' a' b' Hk Ha' Hb'. apply not_true_is_false.
      rewrite ratio_gt_1_5_spec. by apply (Hlater k').
  - intros Hno. apply tighten_stays. intros k a b Ha Hb.
    apply not_true_is_false. rewrite ratio_lt_1_5_spec. by apply (Hno k).
  - intros k a b [Ha Hb] Hr Hlater. apply (tighten_last _ _ _ k a); [done..| |].
    + by apply ratio_lt_1_5_spec.
    + intros k' a' b' Hk Ha' Hb'. apply not_true_is_false.
      rewrite ratio_lt_1_5_spec. by apply (Hlater k').
Qed.

Lemma tighten_by_position_ratio_witness :
  tighten_upper [900; 500; 300; 250]%nat 900 = 300%nat /\
  tighten_lower [100; 400; 200]%nat 100 = 400%nat.
Proof.
  split.
  - apply (proj1 (proj2 (tighten_by_position_ratio [900; 500; 300; 250]%nat 900))
             1%nat 500%nat 300%nat); [by split | lia |].
    intros [|[|[|[|k']]]] a' b' Hk [Ha Hb]; simpl in Ha, Hb; try lia; try discriminate.
    injection Ha as <-. injection Hb as <-. lia.
  - apply (proj2 (proj2 (proj2 (tighten_by_position_ratio [100; 400; 200]%nat 100)))
             0%nat 100%nat 400%nat); [by split | lia |].
    intros [|[|[|k']]] a' b' Hk [Ha Hb]; simpl in Ha, Hb; try lia; try discriminate.
    injection Ha as <-. injection Hb as <-. lia.
Defined.

(** C3 as the specification states it fails.  First, in the locator as a
    whole: on a profile whose valleys below the highest peak (450) are, in
    the order of the candidates, 300 (density 100) and 50 (density 120),
    their density ratio is below 1.5, yet [lower_bound] is not advanced to
    the farther candidate 50: the bounds are (300, 600).  Second, in the
    loops taken alone: with densities 30 and 10 at the consecutive
    candidates 300 and 550 the density ratio is 3, above 1.5, yet the
    upper loop does not advance (300 / 550 is below 1.5); with the same
    densities at the candidates 40 and 250 the density ratio is not below
    1.5, yet the lower loop advances (40 / 250 is below 1.5). *)
Lemma tighten_not_by_density_ratio :
  (let density := three_valley_profile in
   let deeps := scipy_ref.find_peaks (map (fun v => v * -1) density) 200 in
   valley_candidates scipy_ref.argpartition density deeps = Ok [300; 50; 600]%nat /\
   nth 300 density 0 = 100 /\ nth 50 density 0 = 120 /\ 2 * 100 < 3 * 120 /\
   spec_tighten_lower density [300; 50]%nat 300 = 50%nat /\
   find_suspected_pelvis_loc scipy_ref.find_peaks scipy_ref.argpartition density
     = Ok (300, 600)%nat) /\
  nth 300 steep_profile 0 = 30 /\ nth 550 steep_profile 0 = 10 /\
  nth 40 steep_profile 0 = 30 /\ nth 250 steep_profile 0 = 10 /\
  tighten_upper [300; 550]%nat 300 = 300%nat /\
  spec_tighten_upper steep_profile [300; 550]%nat 300 = 550%nat /\
  tighten_lower [40; 250]%nat 40 = 250%nat /\
  spec_tighten_lower steep_profile [40; 250]%nat 40 = 40%nat.
Proof. repeat split; vm_compute; reflexivity. Qed.

(** ** The bounds of the pelvis locator *)

Lemma take_at_Ok {A} (a : list A) (idx : list nat) (vs : list A) :
  take_at a idx = Ok vs -> Forall2 (fun i v => a !! i = Some v) idx vs.
Proof.
  revert vs. induction idx as [|i idx IH]; intros vs; simpl.
  - intros [= <-]. constructor.
  - intros H. apply bind_Ok in H as (v & Hv & H).
    apply bind_Ok in H as (vs' & Hvs & [= <-]).
    constructor; [by apply index_Ok | by apply IH].
Qed.

Lemma take_at_elem_of {A} (a : list A) (idx : list nat) (vs : list A) (v : A) :
  take_at a idx = Ok vs -> v ∈ vs -> v ∈ a.
Proof.
  intros H Hv. apply take_at_Ok in H.
  induction H as [|i w idx vs Hi _ IH]; [by apply elem_of_nil in Hv|].
  apply elem_of_cons in Hv as [->|Hv]; [|by apply IH].
  apply list_elem_of_lookup. by exists i.
Qed.

Lemma take_at_in_range {A} (a : list A) (idx : list nat) (vs : list A) (i : nat) :
  take_at a idx = Ok vs -> i ∈ idx -> (i < length a)%nat.
Proof.
  intros H Hi. apply take_at_Ok in H.
  induction H as [|j w idx vs Hj _ IH]; [by apply elem_of_nil in Hi|].
  apply elem_of_cons in Hi as [->|Hi]; [|by apply IH].
  by apply lookup_lt_Some in Hj.
Qed.

Lemma first_where (f : nat -> bool) (l : list nat) (row : nat) :
  py.index (np.where1 (map f l)) 0 = Ok row ->
  exists m, l !! row = Some m /\ f m = true.
Proof.
  intros H. apply index_Ok in H.
  assert (Hin : row ∈ np.where1 (map f l)) by (apply list_elem_of_lookup; eauto).
  apply elem_of_where1 in Hin.
  change (map f l) with (f <$> l) in Hin. rewrite list_lookup_fmap in Hin.
  destruct (l !! row) as [m|]; [|discriminate]. injection Hin as Hm. eauto.
Qed.

Lemma take_at_singleton {A} (a : list A) (i : nat) (v : A) :
  a !! i = Some v -> take_at a [i] = Ok [v].
Proof. intros H. simpl. unfold py.index. by rewrite H. Qed.

(** Each candidate array has one element, so the loops never run: the
    bounds are the first candidate below and the first above the peak. *)
Lemma bounds_from_Ok (minimas : list nat) (x1_max lower upper : nat) :
  bounds_from minimas x1_max = Ok (lower, upper) ->
  lower ∈ minimas /\ upper ∈ minimas /\ (lower < x1_max < upper)%nat.
Proof.
  unfold bounds_from. intros H.
  apply bind_Ok in H as (r1 & Hr1 & H).
  apply bind_Ok in H as (lbs & Hlbs & H).
  apply bind_Ok in H as (r2 & Hr2 & H).
  apply bind_Ok in H as (ubs & Hubs & H).
  apply bind_Ok in H as (ub & Hub & H).
  apply bind_Ok in H as (lb & Hlb & H).
  apply first_where in Hr1 as (lo & Hlo & Hlo').
  apply first_where in Hr2 as (up & Hup & Hup').
  rewrite (take_at_singleton _ _ _ Hlo) in Hlbs. injection Hlbs as <-.
  rewrite (take_at_singleton _ _ _ Hup) in Hubs. injection Hubs as <-.
  injection Hub as <-. injection Hlb as <-.
  injection H as <- <-.
  apply Nat.ltb_lt in Hlo', Hup'.
  repeat split; try done; apply list_elem_of_lookup; eauto.
Qed.

Section Locator.

Variable find_peaks : list Z -> nat -> list nat.
Variable argpartition : list Z -> Z -> result (list nat).

Lemma find_suspected_pelvis_loc_Ok (density : list Z) (lower upper : nat) :
  find_suspected_pelvis_loc find_peaks argpartition density = Ok (lower, upper) ->
  (lower < upper)%nat /\ (upper < length density)%nat.
Proof.
  unfold find_suspected_pelvis_loc. intros H.
  apply bind_Ok in H as (heights & _ & H).
  apply bind_Ok in H as (order & _ & H).
  apply bind_Ok in H as (top & _ & H).
  destruct top as [|x1_max [|x2_max [|? ?]]]; try discriminate.
  apply bind_Ok in H as (minimas & Hcands & H).
  unfold valley_candidates in Hcands.
  apply bind_Ok in Hcands as (depths & Hdepths & Hcands).
  apply bind_Ok in Hcands as (order' & _ & Hminimas).
  apply bounds_from_Ok in H as (_ & Hup & Hlt).
  split; [lia|].
  eapply take_at_in_range; [exact Hdepths|].
  eapply take_at_elem_of; [exact Hminimas | exact Hup].
Qed.

Lemma axial_density_length (bones : ndarray Z) :
  length (axial_density bones) = (shape bones).2.
Proof.
  unfold axial_density. destruct (shape bones) as [[nx ny] nz].
  by rewrite length_map, length_seq.
Qed.

End Locator.

(** C8.  Whatever peaks [find_peaks] reports and however [argpartition]
    orders them, bounds returned by the locator satisfy
    [lower_bound < upper_bound], and both are slice positions of the mask:
    below its depth, the length of its last axis. *)
Theorem get_pelvis_ROI_bounds
    (find_peaks : list Z -> nat -> list nat)
    (argpartition : list Z -> Z -> result (list nat))
    (bones : ndarray Z) (lower_bound upper_bound : nat) :
  get_pelvis_ROI find_peaks argpartition bones = Ok (lower_bound, upper_bound) ->
  (lower_bound < upper_bound)%nat /\
  (0 <= lower_bound < (shape bones).2)%nat /\
  (0 <= upper_bound < (shape bones).2)%nat.
Proof.
  unfold get_pelvis_ROI. intros H.
  apply find_suspected_pelvis_loc_Ok in H as [Hlt Hup].
  rewrite axial_density_length in Hup. lia.
Qed.

Lemma get_pelvis_ROI_bounds_witness :
  get_pelvis_ROI scipy_ref.find_peaks scipy_ref.argpartition slab_mask = Ok (50, 300)%nat /\
  (50 < 300)%nat /\
  (0 <= 50 < (shape slab_mask).2)%nat /\
  (0 <= 300 < (shape slab_mask).2)%nat.
Proof.
  assert (H : get_pelvis_ROI scipy_ref.find_peaks scipy_ref.argpartition slab_mask
              = Ok (50, 300)%nat) by (vm_compute; reflexivity).
  split; [exact H|].
  exact (get_pelvis_ROI_bounds scipy_ref.find_peaks scipy_ref.argpartition slab_mask
           50 300 H).
Defined.

(** ** Labelling a background mask *)

Lemma all_zero_nth (a : ndarray Z) (i : nat) : all_zero a -> nth i (data a) 0 = 0.
Proof.
  unfold all_zero. intros H. rewrite nth_lookup.
  destruct (data a !! i) as [v|] eqn:E; [|done].
  simpl. by apply (Forall_lookup_1 _ _ _ _ H E).
Qed.

Lemma scan_background (img : ndarray Z) (todo labs : list nat) (n : nat) :
  all_zero img -> measure.scan img todo labs n = (labs, n).
Proof.
  intros Hz. induction todo as [|i todo IH]; [done|].
  simpl. by rewrite (all_zero_nth _ _ Hz), IH.
Qed.

Lemma max_replicate_0 (n : nat) : foldr Nat.max 0%nat (replicate n 0%nat) = 0%nat.
Proof. induction n as [|n IH]; [done|]. simpl. by rewrite IH. Qed.

Lemma bincount_background (n : nat) :
  py.slice (Some 1) None (np.bincount (replicate n 0%nat)) = [].
Proof.
  destruct n as [|n]; [done|].
  unfold np.bincount. change (replicate (S n) 0%nat) with (0%nat :: replicate n 0%nat).
  cbv beta iota. change (foldr Nat.max 0%nat (0%nat :: replicate n 0%nat))
    with (Nat.max 0 (foldr Nat.max 0%nat (replicate n 0%nat))).
  rewrite max_replicate_0. reflexivity.
Qed.

Lemma largestCC_img_background (bones : ndarray Z) :
  all_zero bones -> largestCC_img bones = Raise ValueError.
Proof.
  intros Hz. unfold largestCC_img, measure.label.
  rewrite (scan_background _ _ _ _ Hz). simpl fst. simpl data.
  by rewrite bincount_background.
Qed.

(** C7, as the code has it.  On a mask that is entirely background the
    selection fails, and the failure is the [ValueError] that [np.argmax]
    raises on the empty array [np.bincount(labels.flat)[1:]]. *)
Theorem get_Nlargest_component_background_ValueError
    (find_peaks : list Z -> nat -> list nat)
    (argpartition : list Z -> Z -> result (list nat))
    (bones : ndarray Z) :
  all_zero bones ->
  get_Nlargest_component find_peaks argpartition bones = Raise ValueError.
Proof.
  intros Hz. unfold get_Nlargest_component, largest_component.
  by rewrite (largestCC_img_background _ Hz).
Qed.

Lemma get_Nlargest_component_background_ValueError_witness :
  get_Nlargest_component scipy_ref.find_peaks scipy_ref.argpartition
    (mk_ndarray (2, 2, 2)%nat (replicate 8 0)) = Raise ValueError.
Proof.
  apply get_Nlargest_component_background_ValueError.
  unfold all_zero. simpl. repeat constructor.
Defined.

(** C7 as the specification states it fails: on an all-zero mask of shape
    (2, 2, 2) the selection, with or without the steps that follow it,
    ends in [ValueError], which is not the [EmptyMaskError] condition. *)
Lemma largest_component_not_EmptyMaskError :
  let bones := mk_ndarray (2, 2, 2)%nat (replicate 8 0) in
  all_zero bones /\
  largest_component bones = Raise ValueError /\
  largest_component bones <> Raise EmptyMaskError /\
  get_Nlargest_component scipy_ref.find_peaks scipy_ref.argpartition bones
    <> Raise EmptyMaskError.
Proof.
  intros bones. split; [unfold all_zero; simpl; repeat constructor|].
  split; [vm_compute; reflexivity|].
  split; vm_compute; discriminate.
Qed.

(** ** The labelling *)

Section Labelling.

Variable img : ndarray Z.

Lemma spreads_refl (k : nat) (v : Z) (labs : list nat) : spreads img k v labs labs.
Proof. split; [done|]. intros j l Hl. exists l. auto. Qed.

Lemma spreads_trans (k : nat) (v : Z) (a b c : list nat) :
  spreads img k v a b -> spreads img k v b c -> spreads img k v a c.
Proof.
  intros [Hlen1 H1] [Hlen2 H2]. split; [congruence|].
  intros j l'' Hc.
  destruct (H2 j l'' Hc) as (l' & Hb & Hcase2).
  destruct (H1 j l' Hb) as (l & Ha & Hcase1).
  exists l. split; [done|].
  destruct Hcase2 as [->|(-> & Hv & ->)], Hcase1 as [->|(-> & Hv' & Hk)]; auto.
Qed.

Lemma grow_spreads (k : nat) (v : Z) (labs : list nat) :
  spreads img k v labs (measure.grow img k v labs).
Proof.
  unfold measure.grow. split; [by rewrite length_imap|].
  intros j l' Hl'. rewrite list_lookup_imap in Hl'.
  destruct (labs !! j) as [l|]; [|discriminate]. simpl in Hl'.
  exists l. split; [done|]. injection Hl' as <-.
  destruct (Nat.eqb_spec l 0) as [->|]; [|by left]. simpl.
  destruct (Z.eqb_spec (nth j (data img) 0) v); [|by left]. simpl.
  match goal with |- context [existsb ?f ?l] => destruct (existsb f l) end; auto.
Qed.

Lemma flood_spreads (rounds k : nat) (v : Z) (labs : list nat) :
  spreads img k v labs (measure.flood rounds img k v labs).
Proof.
  revert labs. induction rounds as [|r IH]; intros labs; simpl.
  - apply spreads_refl.
  - eapply spreads_trans; [apply grow_spreads | apply IH].
Qed.

Lemma spreads_keeps (k : nat) (v : Z) (labs labs' : list nat) (j l : nat) :
  spreads img k v labs labs' -> labs !! j = Some l -> l <> 0%nat -> labs' !! j = Some l.
Proof.
  intros [Hlen H] Hj Hl.
  destruct (lookup_lt_is_Some_2 labs' j) as [l' Hl'].
  { rewrite Hlen. by apply lookup_lt_Some in Hj. }
  destruct (H j l' Hl') as (l0 & Hj' & Hcase).
  assert (l0 = l) as -> by congruence.
  destruct Hcase as [->|(-> & _)]; [done|congruence].
Qed.

Lemma seed_labelled (labs : list nat) (n i : nat) (labs' : list nat) :
  labelled img labs n -> (i < size (shape img))%nat ->
  nth i (data img) 0 <> 0 -> labs !! i = Some 0%nat ->
  spreads img (S n) (nth i (data img) 0) (<[i := S n]> labs) labs' ->
  labelled img labs' (S n) /\ labs' !! i = Some (S n) /\
  (forall j l, labs !! j = Some l -> l <> 0%nat -> labs' !! j = Some l).
Proof.
  intros (Hlen & Hle & Hused & Hfg) Hi Hv Hzero Hsp.
  assert (Hseed : <[i := S n]> labs !! i = Some (S n)).
  { apply list_lookup_insert_eq. by rewrite Hlen. }
  assert (Hkeep : forall j l, labs !! j = Some l -> l <> 0%nat -> labs' !! j = Some l).
  { intros j l Hj Hl. eapply spreads_keeps; [exact Hsp| |done].
    rewrite list_lookup_insert_ne; [done|]. intros ->. congruence. }
  assert (Hi' : labs' !! i = Some (S n)) by (eapply spreads_keeps; eauto).
  split; [|by split].
  destruct Hsp as [Hlen' Hsp]. rewrite length_insert in Hlen'.
  split; [congruence|]. split; [|split].
  - intros j l' Hl'. destruct (Hsp j l' Hl') as (l & Hj & [->|(_ & _ & ->)]); [|lia].
    destruct (decide (j = i)) as [->|Hne].
    + rewrite Hseed in Hj. injection Hj as <-. lia.
    + rewrite list_lookup_insert_ne in Hj by done. apply Hle in Hj. lia.
  - intros l Hl. destruct (decide (l = S n)) as [->|Hne].
    + apply list_elem_of_lookup. eauto.
    + assert (Hin : l ∈ labs) by (apply Hused; lia).
      apply list_elem_of_lookup in Hin as [j Hj].
      apply list_elem_of_lookup. exists j. apply Hkeep; [done|lia].
  - intros j l' Hl' Hnz.
    destruct (Hsp j l' Hl') as (l & Hj & [->|(_ & Hval & _)]); [|congruence].
    destruct (decide (j = i)) as [->|Hne]; [done|].
    rewrite list_lookup_insert_ne in Hj by done. by apply (Hfg j l).
Qed.

Lemma scan_labelled (todo labs : list nat) (n : nat) (labs' : list nat) (n' : nat) :
  measure.scan img todo labs n = (labs', n') ->
  labelled img labs n ->
  (forall j, j ∈ todo -> (j < size (shape img))%nat) ->
  labelled img labs' n' /\
  (forall j l, labs !! j = Some l -> l <> 0%nat -> labs' !! j = Some l) /\
  (forall j, j ∈ todo -> nth j (data img) 0 <> 0 ->
             exists l, labs' !! j = Some l /\ l <> 0%nat).
Proof.
  revert labs n. induction todo as [|i todo IH]; intros labs n Hscan Hinv Htodo.
  - injection Hscan as <- <-. split; [done|]. split; [auto|].
    intros j Hj. by apply elem_of_nil in Hj.
  - assert (Hi : (i < size (shape img))%nat) by (apply Htodo; by left).
    assert (Hrest : forall j, j ∈ todo -> (j < size (shape img))%nat).
    { intros j Hj. apply Htodo. by right. }
    destruct (lookup_lt_is_Some_2 labs i) as [li Hli].
    { destruct Hinv as [-> _]. done. }
    simpl in Hscan. rewrite (nth_lookup_Some _ _ _ _ Hli) in Hscan.
    destruct (Z.eqb_spec (nth i (data img) 0) 0) as [Hbg|Hfg]; simpl in Hscan.
    { destruct (IH _ _ Hscan Hinv Hrest) as (Hinv' & Hkeep & Hdone).
      split; [done|]. split; [done|].
      intros j Hj Hnz. apply elem_of_cons in Hj as [->|Hj]; [done|]. by apply Hdone. }
    destruct (Nat.eqb_spec li 0) as [Hz|Hlab]; simpl in Hscan.
    + rewrite Hz in Hli.
      destruct (seed_labelled labs n i _ Hinv Hi Hfg Hli
                  (flood_spreads (length labs) (S n) (nth i (data img) 0) _))
        as (Hinv1 & Hseed & Hkeep1).
      destruct (IH _ _ Hscan Hinv1 Hrest) as (Hinv' & Hkeep & Hdone).
      split; [done|]. split.
      * intros j l Hj Hl. apply Hkeep; [|done]. by apply Hkeep1.
      * intros j Hj Hnz. apply elem_of_cons in Hj as [->|Hj]; [|by apply Hdone].
        exists (S n). split; [|done]. by apply Hkeep.
    + destruct (IH _ _ Hscan Hinv Hrest) as (Hinv' & Hkeep & Hdone).
      split; [done|]. split; [done|].
      intros j Hj Hnz. apply elem_of_cons in Hj as [->|Hj]; [|by apply Hdone].
      exists li. split; [|done]. by apply Hkeep.
Qed.

Lemma labelled_init : labelled img (replicate (size (shape img)) 0%nat) 0.
Proof.
  split; [by rewrite length_replicate|]. split; [|split].
  - intros j l Hj. apply lookup_replicate in Hj as [-> _]. done.
  - intros l Hl. lia.
  - intros j l Hj Hl. apply lookup_replicate in Hj as [-> _]. done.
Qed.

(** What [label] guarantees: the labels are 0 on the background and 1 to
    the number of labels on the foreground, and each of them is used. *)
Lemma label_spec :
  let labels := (measure.label img).1 in
  let num := (measure.label img).2 in
  shape labels = shape img /\
  length (data labels) = size (shape img) /\
  (forall j l, data labels !! j = Some l -> (l <= num)%nat) /\
  (forall l, (1 <= l <= num)%nat -> l ∈ data labels) /\
  (forall j l, data labels !! j = Some l -> (l <> 0%nat <-> nth j (data img) 0 <> 0)).
Proof.
  unfold measure.label.
  destruct (measure.scan img (seq 0 (size (shape img)))
              (replicate (size (shape img)) 0%nat) 0) as [labs num] eqn:E.
  simpl.
  destruct (scan_labelled _ _ _ _ _ E labelled_init) as ((Hlen & Hle & Hused & Hfg) & _ & Hdone).
  { intros j Hj. apply elem_of_seq in Hj. lia. }
  repeat split; try done.
  - by apply Hfg.
  - intros Hnz.
    match goal with Hj : labs !! j = Some _ |- _ =>
      pose proof (lookup_lt_Some _ _ _ Hj) as Hlt end.
    destruct (Hdone j) as (l' & Hl' & Hne); [|done|congruence].
    apply elem_of_seq. lia.
Qed.

End Labelling.

(** ** Counting the voxels of the selected component *)

Lemma argmax_from_lt (a : list nat) (best bv i : nat) :
  (best < i)%nat -> (np.argmax_from best bv i a < i + length a)%nat.
Proof.
  revert best bv i. induction a as [|v a IH]; intros best bv i Hb; simpl; [lia|].
  destruct (bv <? v)%nat.
  - specialize (IH i v (S i)). lia.
  - specialize (IH best bv (S i)). lia.
Qed.

Lemma argmax_Ok (a : list nat) :
  a <> [] -> exists k, np.argmax a = Ok k /\ (k < length a)%nat.
Proof.
  destruct a as [|v a]; [done|]. intros _. eexists. split; [reflexivity|].
  pose proof (argmax_from_lt a 0 v 1). simpl. lia.
Qed.

Lemma slice_from_1 {A} (l : list A) : py.slice (Some 1) None l = drop 1 l.
Proof.
  destruct l as [|x l]; [done|].
  unfold py.slice, py.clip. simpl from_option.
  replace (Z.to_nat (Z.min 1 (Z.of_nat (S (length l))))) with 1%nat by lia.
  simpl. rewrite Nat.sub_0_r, drop_0. by apply take_ge.
Qed.

Lemma max_ge_elem (x : list nat) (l : nat) : l ∈ x -> (l <= foldr Nat.max 0%nat x)%nat.
Proof.
  induction x as [|y x IH]; intros Hl; [by apply elem_of_nil in Hl|].
  simpl. apply elem_of_cons in Hl as [->|Hl]; [lia|]. specialize (IH Hl). lia.
Qed.

Lemma max_le_bound (x : list nat) (n : nat) :
  (forall l, l ∈ x -> (l <= n)%nat) -> (foldr Nat.max 0%nat x <= n)%nat.
Proof.
  induction x as [|y x IH]; intros Hb; simpl; [lia|].
  assert (y <= n)%nat by (apply Hb; by left).
  assert (foldr Nat.max 0%nat x <= n)%nat by (apply IH; intros l Hl; apply Hb; by right).
  lia.
Qed.

Lemma bincount_tail_length (x : list nat) :
  length (py.slice (Some 1) None (np.bincount x)) = foldr Nat.max 0%nat x.
Proof.
  rewrite slice_from_1, length_drop. destruct x as [|y x]; [done|].
  unfold np.bincount. rewrite length_map, length_seq. lia.
Qed.

Section Counting.

(** [K] is the selected label; it is not the background label. *)
Variable K : nat.
Hypothesis K_pos : K <> 0%nat.

Lemma count_selected (D : list Z) (L : list nat) :
  Forall2 (fun d l => d <> 0 <-> l <> 0%nat) D L ->
  length (filter (fun v => v <> 0) (zip_with (fun v (b : bool) => v * Z.b2z b) D
                                      (map (fun l => (l =? K)%nat) L)))
  = np.count K L.
Proof.
  unfold np.count. induction 1 as [|d l D L Hdl _ IH]; [done|].
  simpl. rewrite !filter_cons. destruct (Nat.eqb_spec l K) as [->|Hne]; simpl.
  - rewrite decide_True by (rewrite Z.mul_1_r; by apply Hdl).
    rewrite decide_True by done. simpl. by rewrite IH.
  - rewrite decide_False by lia. rewrite decide_False by done. done.
Qed.

Lemma count_foreground (D : list Z) (L : list nat) :
  Forall2 (fun d l => d <> 0 <-> l <> 0%nat) D L ->
  length (filter (fun v => v <> 0) D) = length (filter (fun l => l <> 0%nat) L).
Proof.
  induction 1 as [|d l D L Hdl _ IH]; [done|].
  rewrite !filter_cons. destruct (decide (d = 0)) as [Hd|Hd].
  - rewrite decide_False by tauto. rewrite decide_False by tauto. done.
  - rewrite decide_True by done. rewrite decide_True by tauto. simpl. by rewrite IH.
Qed.

Lemma count_le_foreground (L : list nat) :
  (np.count K L <= length (filter (fun l => l <> 0%nat) L))%nat.
Proof.
  unfold np.count. induction L as [|l L IH]; [done|].
  rewrite !filter_cons. destruct (decide (l = K)) as [->|Hne].
  - rewrite decide_True by done. simpl. lia.
  - destruct (decide (l <> 0%nat)); simpl; lia.
Qed.

Lemma count_eq_foreground (L : list nat) :
  np.count K L = length (filter (fun l => l <> 0%nat) L) <->
  (forall l, l ∈ L -> l <> 0%nat -> l = K).
Proof.
  induction L as [|l L IH].
  - split; [|done]. intros _ l Hl. by apply elem_of_nil in Hl.
  - pose proof (count_le_foreground L) as Hle.
    unfold np.count in *. rewrite !filter_cons.
    destruct (decide (l = K)) as [->|Hne].
    + rewrite decide_True by done. simpl. split.
      * intros Heq l Hl Hnz. apply elem_of_cons in Hl as [->|Hl]; [done|].
        apply IH; [lia|done..].
      * intros Hall. f_equal. apply IH. intros l Hl. apply Hall. by right.
    + destruct (decide (l <> 0%nat)) as [Hnz|Hz]; simpl.
      * split; [lia|]. intros Hall. exfalso. apply Hne, Hall; [by left|done].
      * rewrite IH. split.
        -- intros Hall l' Hl' Hnz. apply elem_of_cons in Hl' as [->|Hl']; [tauto|].
           by apply Hall.
        -- intros Hall l' Hl'. apply Hall. by right.
Qed.

End Counting.

Lemma label_matches_foreground (M : ndarray Z) :
  wf M ->
  Forall2 (fun d l => d <> 0 <-> l <> 0%nat) (data M) (data (measure.label M).1).
Proof.
  intros Hwf. destruct (label_spec M) as (_ & Hlen & _ & _ & Hiff).
  apply Forall2_same_length_lookup_2.
  - unfold wf in Hwf. congruence.
  - intros i d l Hd Hl. rewrite (Hiff i l Hl), (nth_lookup_Some _ _ _ _ Hd). done.
Qed.

Lemma largestCC_img_count_labels (M : ndarray Z) :
  wf M -> (0 < count_nonzero M)%nat ->
  exists r, largestCC_img M = Ok r /\
            (count_nonzero r <= count_nonzero M)%nat /\
            (count_nonzero r = count_nonzero M <-> num_components M = 1%nat).
Proof.
  intros Hwf Hfg.
  pose proof (label_matches_foreground M Hwf) as Hmatch.
  destruct (label_spec M) as (_ & _ & Hle & Hused & _).
  unfold largestCC_img, num_components, count_nonzero in *.
  set (L := data (measure.label M).1) in *.
  set (num := (measure.label M).2) in *.
  rewrite (count_foreground _ _ Hmatch) in *.
  assert (Hbound : forall l, l ∈ L -> (l <= num)%nat).
  { intros l Hl. apply list_elem_of_lookup in Hl as [j Hj]. by apply (Hle j). }
  assert (Hmax : (1 <= foldr Nat.max 0%nat L <= num)%nat).
  { split; [|by apply max_le_bound].
    destruct (filter (fun l => l <> 0%nat) L) as [|l ?] eqn:E; [simpl in Hfg; lia|].
    assert (Hl : l ∈ filter (fun l => l <> 0%nat) L) by (rewrite E; by left).
    apply list_elem_of_filter in Hl as [Hnz Hl]. apply max_ge_elem in Hl. lia. }
  destruct (argmax_Ok (py.slice (Some 1) None (np.bincount L))) as (k & Hk & Hlt).
  { intros Hnil. pose proof (bincount_tail_length L) as Hlen.
    rewrite Hnil in Hlen. simpl in Hlen. lia. }
  rewrite bincount_tail_length in Hlt. rewrite Hk. simpl.
  eexists. split; [reflexivity|]. simpl.
  assert (HK : (k + 1 <> 0)%nat) by lia.
  change (data (measure.label M).1) with L.
  rewrite (count_selected (k + 1) HK _ _ Hmatch).
  split; [by apply count_le_foreground|].
  rewrite (count_eq_foreground (k + 1) HK). split.
  - intros Hall.
    assert (H1 : 1%nat = (k + 1)%nat) by (apply Hall; [apply Hused|]; lia).
    destruct (decide (num = 1%nat)) as [|Hne]; [done|].
    assert (H2 : 2%nat = (k + 1)%nat) by (apply Hall; [apply Hused|]; lia).
    lia.
  - intros Hone l Hl Hnz. apply Hbound in Hl. lia.
Qed.

(** ** Further properties of the scan *)

(** X1.  Every position that [find_all_minima] stores is one less than
    the position of a strict interior minimum of the curve, and every
    strict interior minimum is stored that way. *)
Theorem find_all_minima_positions (curve : list Z) :
  Forall (fun j => strict_interior_min curve (S j)) (find_all_minima curve) /\
  forall i, strict_interior_min curve i ->
            exists j, i = S j /\ j ∈ find_all_minima curve.
Proof.
  split.
  - apply Forall_forall. intros j Hj. by apply elem_of_find_all_minima.
  - intros [|j] Hmin.
    + destruct Hmin as [? _]. lia.
    + exists j. split; [done|]. by apply elem_of_find_all_minima.
Qed.

Lemma arange_steps (a d step : Z) :
  0 < step -> 0 <= d ->
  np.arange a (a + d * step) step
  = map (fun k : nat => a + Z.of_nat k * step) (seq 0 (Z.to_nat d)).
Proof.
  intros Hstep Hd. unfold np.arange.
  replace (a - (a + d * step)) with (- d * step) by lia.
  rewrite Z.div_mul by lia. by rewrite Z.opp_involutive.
Qed.

Lemma chunks_concat (d : nat) (step : Z) (s n : nat) :
  concat (map (fun r : nat =>
                 map (fun k : nat => 150 + Z.of_nat r * Z.of_nat d * step + Z.of_nat k * step)
                     (seq 0 d))
              (seq s n))
  = map (fun k : nat => 150 + Z.of_nat k * step) (seq (s * d) (n * d)).
Proof.
  revert s. induction n as [|n IH]; intros s; [done|].
  simpl. rewrite IH, seq_app, map_app. f_equal.
  - replace (seq (s * d) d) with (Nat.add (s * d) <$> seq 0 d)
      by (rewrite fmap_add_seq; f_equal; lia).
    rewrite map_map. apply map_ext. intros k. lia.
  - f_equal. f_equal. lia.
Qed.

(** The thresholds that [_tasks_distribution] dispatches, in order: the
    first [num_cores * d] candidates of [150, 150 + resolution, ...]. *)
Lemma dispatched_thresholds (resolution : Z) (num_cores : nat) :
  0 < resolution -> (1 <= num_cores)%nat ->
  (fun ranges => concat ranges) <$> _tasks_distribution resolution num_cores
  = Ok (np.arange 150
          (150 + Z.of_nat num_cores * ((514 - 150) / resolution / Z.of_nat num_cores)
                 * resolution)
          resolution).
Proof.
  intros Hres Hn. unfold _tasks_distribution, py.floordiv.
  destruct (Z.eqb_spec resolution 0); [lia|]. simpl.
  destruct (Z.eqb_spec (Z.of_nat num_cores) 0); [lia|]. simpl.
  set (d := (514 - 150) / resolution / Z.of_nat num_cores).
  assert (Hd : 0 <= d).
  { unfold d. apply Z.div_pos; [|lia]. apply Z.div_pos; lia. }
  f_equal. rewrite arange_steps by lia.
  transitivity (map (fun k : nat => 150 + Z.of_nat k * resolution)
                  (seq (0 * Z.to_nat d) (num_cores * Z.to_nat d))).
  - rewrite <- chunks_concat. f_equal. apply map_ext. intros r.
    rewrite arange_steps by lia. apply map_ext. intros k. lia.
  - f_equal. f_equal. lia.
Qed.

(** X2.  The merged curve is that of one sequential pass over the first
    [num_cores * d] threshold candidates, [d] being
    [((514 - 150) // resolution) // num_cores]: the component count of
    the segmentation at each of them, in order. *)
Theorem component_curve_sequential
    (img_data : ndarray Z) (resolution Imax : Z) (num_cores : nat) :
  0 < resolution -> (1 <= num_cores)%nat ->
  component_curve img_data resolution Imax num_cores
  = Ok (map (fun i_min => num_components (SegmentationByTH img_data i_min Imax))
          (np.arange 150
             (150 + Z.of_nat num_cores * ((514 - 150) / resolution / Z.of_nat num_cores)
                    * resolution)
             resolution)).
Proof.
  intros Hres Hn. pose proof (dispatched_thresholds resolution num_cores Hres Hn) as Hd.
  unfold component_curve. rewrite aggregate_sequential.
  destruct (_tasks_distribution resolution num_cores) as [ranges|]; [|discriminate].
  injection Hd as <-. simpl. f_equal.
  unfold process_results, num_components. simpl. by rewrite map_map.
Qed.

Lemma component_curve_sequential_witness :
  component_curve (mk_ndarray (1, 1, 3)%nat [65535; 300; -1]) 10 1300 8
  = Ok (map (fun i_min =>
               num_components (SegmentationByTH (mk_ndarray (1, 1, 3)%nat [65535; 300; -1])
                                 i_min 1300))
          (np.arange 150 (150 + Z.of_nat 8 * ((514 - 150) / 10 / Z.of_nat 8) * 10) 10)).
Proof. apply component_curve_sequential; lia. Defined.

(** X3.  The dictionary of results does not depend on the order in which
    the workers finish. *)
Theorem results_independent_of_schedule
    (img_data : ndarray Z) (Imax : Z) (ranges : list (list Z))
    (finished : list (nat * list Z)) :
  finished ≡ₚ zip (seq 0 (length ranges)) ranges ->
  run_processes img_data Imax finished
  = run_processes img_data Imax (zip (seq 0 (length ranges)) ranges).
Proof.
  intros Hperm. symmetry. apply run_processes_schedule; [|done].
  rewrite zip_seq_keys. apply NoDup_seq.
Qed.

Lemma results_independent_of_schedule_witness :
  let img_data := mk_ndarray (1, 1, 3)%nat [65535; 300; -1] in
  run_processes img_data 1300 [(1%nat, [170; 180]); (0%nat, [150; 160])]
  = run_processes img_data 1300 (zip (seq 0 2) [[150; 160]; [170; 180]]).
Proof.
  intros img_data.
  apply (results_independent_of_schedule img_data 1300 [[150; 160]; [170; 180]]).
  apply Permutation_swap.
Defined.

(** ** Further properties of the segmentation *)

Lemma get_closed (P : Z -> Prop) (img : ndarray Z) (p : coord) :
  P 0 -> Forall P (data img) -> P (get 0 img p).
Proof.
  intros H0 Hall. unfold get. rewrite nth_lookup.
  destruct (data img !! ravel (shape img) p) as [v|] eqn:E; [|done].
  simpl. by apply (Forall_lookup_1 _ _ _ _ Hall E).
Qed.

Lemma over_footprint_closed (P : Z -> Prop) (op : Z -> Z -> Z) (img : ndarray Z) :
  P 0 -> (forall a b, P a -> P b -> P (op a b)) ->
  Forall P (data img) -> Forall P (data (morphology.over_footprint op img)).
Proof.
  intros H0 Hop Hall. unfold morphology.over_footprint, tabulate. simpl.
  apply Forall_forall. intros v Hv.
  apply list_elem_of_fmap in Hv as (i & -> & _).
  induction (morphology.footprint (shape img) (unravel (shape img) i)) as [|q qs IH]; simpl.
  - by apply get_closed.
  - apply Hop; [by apply get_closed | exact IH].
Qed.

Lemma morphology_closed (P : Z -> Prop) (img : ndarray Z) :
  P 0 -> (forall a b, P a -> P b -> P (Z.min a b)) ->
  (forall a b, P a -> P b -> P (Z.max a b)) ->
  Forall P (data img) ->
  Forall P (data (morphology.closing (morphology.opening img))).
Proof.
  intros H0 Hmin Hmax Hall.
  unfold morphology.closing, morphology.opening, morphology.erosion, morphology.dilation.
  repeat (apply over_footprint_closed; [done|done|]). done.
Qed.

Lemma threshold_step_data (img_data : ndarray Z) (Imin Imax : Z) :
  data (threshold_step img_data Imin Imax)
  = map (fun v => clear_below_max (mark_window Imin Imax (np.uint16 v))) (data img_data).
Proof. unfold threshold_step, amap. simpl. by rewrite !map_map. Qed.

(** X4.  The mask that [SegmentationByTH] returns holds only the values
    0 and [MAX_VOXEL_VALUE]. *)
Theorem SegmentationByTH_binary (img_data : ndarray Z) (Imin Imax : Z) :
  Forall (fun v => v = 0 \/ v = MAX_VOXEL_VALUE)
         (data (SegmentationByTH img_data Imin Imax)).
Proof.
  unfold SegmentationByTH. apply morphology_closed.
  - by left.
  - intros a b [->| ->] [->| ->]; unfold MAX_VOXEL_VALUE; lia.
  - intros a b [->| ->] [->| ->]; unfold MAX_VOXEL_VALUE; lia.
  - rewrite threshold_step_data. apply Forall_forall. intros v Hv.
    apply list_elem_of_fmap in Hv as (w & -> & _).
    rewrite threshold_voxel by (apply Z.mod_pos_bound; lia).
    case_decide; auto.
Qed.

(** X5.  With a degenerate window ([Imax <= Imin]) the mask is all zero,
    on every volume none of whose samples is cast to 65535. *)
Theorem SegmentationByTH_degenerate_zero (img_data : ndarray Z) (Imin Imax : Z) :
  Imax <= Imin ->
  Forall (fun v => np.uint16 v <> 65535) (data img_data) ->
  all_zero (SegmentationByTH img_data Imin Imax).
Proof.
  intros Hwin Hnot. unfold all_zero, SegmentationByTH. apply morphology_closed.
  - done.
  - intros a b -> ->. done.
  - intros a b -> ->. done.
  - rewrite threshold_step_data. apply Forall_forall. intros v Hv.
    apply list_elem_of_fmap in Hv as (w & -> & Hw).
    rewrite threshold_voxel by (apply Z.mod_pos_bound; lia).
    rewrite Forall_forall in Hnot. specialize (Hnot w Hw).
    rewrite decide_False; [done|]. unfold np.uint16 in *. lia.
Qed.

Lemma SegmentationByTH_degenerate_zero_witness :
  all_zero (SegmentationByTH (mk_ndarray (1, 2, 2)%nat [150; 300; 1200; -1000]) 200 200).
Proof.
  apply SegmentationByTH_degenerate_zero; [lia|].
  repeat constructor; vm_compute; discriminate.
Defined.

(** ** Further properties of the pelvis locator *)

Lemma where_from_head (f : nat -> bool) (l : list nat) (s : nat) :
  match np.where_from s (map f l) with
  | [] => filter (fun m => f m = true) l = []
  | row :: _ => (s <= row)%nat /\ l !! (row - s)%nat = head (filter (fun m => f m = true) l)
  end.
Proof.
  revert s. induction l as [|m l IH]; intros s; [done|].
  simpl. rewrite filter_cons. destruct (f m) eqn:E.
  - rewrite decide_True by done. split; [lia|]. by rewrite Nat.sub_diag.
  - rewrite decide_False by congruence. specialize (IH (S s)).
    destruct (np.where_from (S s) (map f l)) as [|row rest]; [done|].
    destruct IH as [Hle IH]. split; [lia|].
    replace (row - s)%nat with (S (row - S s)) by lia. done.
Qed.

Lemma first_candidate (f : nat -> bool) (minimas : list nat) :
  (row ← py.index (np.where1 (map f minimas)) 0; take_at minimas [row])
  = (m ← py.index (filter (fun m => f m = true) minimas) 0; mret [m]).
Proof.
  unfold np.where1. pose proof (where_from_head f minimas 0) as H.
  destruct (np.where_from 0 (map f minimas)) as [|row rest].
  - rewrite H. done.
  - destruct H as [_ H]. rewrite Nat.sub_0_r in H. simpl.
    unfold py.index at 1. rewrite H.
    by destruct (filter (fun m => f m = true) minimas).
Qed.

(** X6.  The refinement never moves a bound: each candidate array has
    one element, so the locator returns the first candidate below the
    highest peak and the first candidate above it, in the order of
    [minimas]. *)
Theorem bounds_from_first_candidates (minimas : list nat) (x1_max : nat) :
  bounds_from minimas x1_max
  = (lower ← py.index (filter (fun m => m < x1_max)%nat minimas) 0;
     upper ← py.index (filter (fun m => x1_max < m)%nat minimas) 0;
     mret (lower, upper)).
Proof.
  assert (Hfilter : forall (g : nat -> bool) (P : nat -> Prop) `{!forall m, Decision (P m)},
             (forall m, g m = true <-> P m) ->
             filter (fun m => g m = true) minimas = filter P minimas).
  { intros g P ? Hg. apply list_filter_iff. intros m. apply Hg. }
  rewrite <- (Hfilter (fun m => (m <? x1_max)%nat) (fun m => (m < x1_max)%nat))
    by (intros m; apply Nat.ltb_lt).
  rewrite <- (Hfilter (fun m => (x1_max <? m)%nat) (fun m => (x1_max < m)%nat))
    by (intros m; apply Nat.ltb_lt).
  unfold bounds_from.
  pose proof (first_candidate (fun m => (m <? x1_max)%nat) minimas) as Hlo.
  pose proof (first_candidate (fun m => (x1_max <? m)%nat) minimas) as Hup.
  destruct (py.index (np.where1 (map (fun m => (m <? x1_max)%nat) minimas)) 0) as [r1|e1];
    simpl in Hlo |- *.
  - rewrite Hlo.
    destruct (py.index (filter (fun m => (m <? x1_max)%nat = true) minimas) 0) as [lo|];
      [|done].
    simpl.
    destruct (py.index (np.where1 (map (fun m => (x1_max <? m)%nat) minimas)) 0) as [r2|e2];
      simpl in Hup |- *.
    + rewrite Hup.
      destruct (py.index (filter (fun m => (x1_max <? m)%nat = true) minimas) 0);
        reflexivity.
    + destruct (py.index (filter (fun m => (x1_max <? m)%nat = true) minimas) 0);
        [discriminate | by injection Hup as ->].
  - destruct (py.index (filter (fun m => (m <? x1_max)%nat = true) minimas) 0);
      [discriminate | by injection Hlo as ->].
Qed.

(** ** The labels are the connected components *)

Lemma adjacent_sym (sh : nat * nat * nat) (j m : nat) :
  measure.adjacent sh j m = measure.adjacent sh m j.
Proof.
  unfold measure.adjacent, measure.near.
  destruct (unravel sh j) as [[x y] z], (unravel sh m) as [[x' y'] z'].
  rewrite (Nat.eqb_sym j m).
  rewrite (andb_comm (x <=? S x')%nat), (andb_comm (y <=? S y')%nat),
    (andb_comm (z <=? S z')%nat). done.
Qed.

#[global] Instance touch_sym (img : ndarray Z) : Symmetric (touch img).
Proof.
  intros j m (Hj & Hm & Hadj & Hval). repeat split; try done.
  by rewrite adjacent_sym.
Qed.

Lemma linked_sym (img : ndarray Z) (j m : nat) : linked img j m -> linked img m j.
Proof. unfold linked. intros H. by symmetry. Qed.

Section Regions.

Variable img : ndarray Z.
Variable k : nat.
Variable v : Z.
Hypothesis k_pos : k <> 0%nat.

Lemma grow_lookup (labs : list nat) (j l' : nat) :
  measure.grow img k v labs !! j = Some l' ->
  exists l, labs !! j = Some l /\
    (l' = l \/
     (l = 0%nat /\ nth j (data img) 0 = v /\ l' = k /\
      exists m, labs !! m = Some k /\ measure.adjacent (shape img) j m = true)).
Proof.
  unfold measure.grow. intros Hl'. rewrite list_lookup_imap in Hl'.
  destruct (labs !! j) as [l|]; [|discriminate]. simpl in Hl'.
  exists l. split; [done|]. injection Hl' as <-.
  destruct (Nat.eqb_spec l 0) as [->|]; [|by left]. simpl.
  destruct (Z.eqb_spec (nth j (data img) 0) v); [|by left]. simpl.
  match goal with |- context [existsb ?f ?l] => destruct (existsb f l) eqn:E end;
    [|by left].
  right. repeat split; try done.
  apply existsb_exists in E as (m & Hin & Hm).
  apply andb_true_iff in Hm as [Hk Hadj]. apply Nat.eqb_eq in Hk.
  apply in_seq in Hin. exists m. split; [|done].
  destruct (lookup_lt_is_Some_2 labs m) as [lm Hlm]; [lia|].
  rewrite (nth_lookup_Some _ _ _ _ Hlm) in Hk. by subst.
Qed.

Lemma grow_fixpoint_closed (labs : list nat) (j m : nat) :
  measure.grow img k v labs = labs ->
  labs !! j = Some k -> labs !! m = Some 0%nat ->
  measure.adjacent (shape img) m j = true -> nth m (data img) 0 = v -> False.
Proof.
  intros Hfix Hj Hm Hadj Hval.
  assert (H : measure.grow img k v labs !! m = Some 0%nat) by (by rewrite Hfix).
  unfold measure.grow in H. rewrite list_lookup_imap, Hm in H. simpl in H.
  rewrite Hval, Z.eqb_refl in H. simpl in H.
  match type of H with context [existsb ?f ?l] =>
    assert (E : existsb f l = true) end.
  { apply existsb_exists. exists j. split.
    - apply in_seq. apply lookup_lt_Some in Hj. lia.
    - rewrite (nth_lookup_Some _ _ _ _ Hj), Nat.eqb_refl. done. }
  rewrite E in H. congruence.
Qed.

Lemma imap_zeros (g : nat -> nat -> nat) (labs : list nat) :
  (forall j l, g j l = l \/ (l = 0%nat /\ g j l = k)) ->
  (length (filter (fun l => l = 0%nat) (imap g labs))
   <= length (filter (fun l => l = 0%nat) labs))%nat /\
  (length (filter (fun l => l = 0%nat) (imap g labs))
   = length (filter (fun l => l = 0%nat) labs) -> imap g labs = labs).
Proof.
  revert g. induction labs as [|x labs IH]; intros g Hg; [done|].
  rewrite imap_cons, !filter_cons.
  destruct (IH (g ∘ S)) as [Hle Heq]; [intros j l; apply Hg|].
  destruct (Hg 0%nat x) as [->|[-> ->]].
  - destruct (decide (x = 0%nat)); simpl; (split; [lia|]); intros H; f_equal; apply Heq; lia.
  - rewrite decide_False by done. rewrite decide_True by done. simpl. split; lia.
Qed.

Lemma grow_zeros (labs : list nat) :
  (length (filter (fun l => l = 0%nat) (measure.grow img k v labs))
   <= length (filter (fun l => l = 0%nat) labs))%nat /\
  (length (filter (fun l => l = 0%nat) (measure.grow img k v labs))
   = length (filter (fun l => l = 0%nat) labs) -> measure.grow img k v labs = labs).
Proof.
  apply imap_zeros. intros j l.
  destruct (Nat.eqb_spec l 0) as [->|]; [|by left]. simpl.
  match goal with |- context [if ?c then _ else _] => destruct c end; auto.
Qed.

Lemma flood_stable (rounds : nat) (labs : list nat) :
  measure.grow img k v labs = labs -> measure.flood rounds img k v labs = labs.
Proof. intros Hfix. induction rounds as [|r IH]; [done|]. simpl. by rewrite Hfix. Qed.

(** After as many rounds as there are unlabelled voxels the region has
    stopped growing. *)
Lemma flood_fixpoint (rounds : nat) (labs : list nat) :
  (length (filter (fun l => l = 0%nat) labs) <= rounds)%nat ->
  measure.grow img k v (measure.flood rounds img k v labs)
  = measure.flood rounds img k v labs.
Proof.
  revert labs. induction rounds as [|r IH]; intros labs Hz.
  - simpl. apply grow_zeros. pose proof (grow_zeros labs) as [Hle _]. lia.
  - simpl. destruct (grow_zeros labs) as [Hle Heq].
    destruct (decide (length (filter (fun l => l = 0%nat) (measure.grow img k v labs))
                      = length (filter (fun l => l = 0%nat) labs))) as [E|E].
    + rewrite (Heq E), (flood_stable r labs (Heq E)). by apply Heq.
    + apply IH. lia.
Qed.

Variable i : nat.

Lemma grow_region (labs : list nat) :
  length labs = size (shape img) ->
  region_of img k v i labs -> region_of img k v i (measure.grow img k v labs).
Proof.
  intros Hlen Hreg m Hm.
  destruct (grow_lookup _ _ _ Hm) as (l & Hl & [->|(-> & Hval & _ & m' & Hm' & Hadj)]).
  - by apply Hreg.
  - split; [done|]. destruct (Hreg m' Hm') as [Hval' Hlink].
    eapply rtc_r; [exact Hlink|].
    apply lookup_lt_Some in Hl, Hm'. rewrite Hlen in Hl, Hm'.
    repeat split; try done; [by rewrite adjacent_sym | congruence].
Qed.

Lemma flood_region (rounds : nat) (labs : list nat) :
  length labs = size (shape img) ->
  region_of img k v i labs -> region_of img k v i (measure.flood rounds img k v labs).
Proof.
  revert labs. induction rounds as [|r IH]; intros labs Hlen Hreg; [done|].
  simpl. apply IH.
  - destruct (grow_spreads img k v labs) as [-> _]. done.
  - by apply grow_region.
Qed.

End Regions.

Section ScanRegions.

Variable img : ndarray Z.

Lemma zeros_le_length (labs : list nat) :
  (length (filter (fun l => l = 0%nat) labs) <= length labs)%nat.
Proof. apply length_filter. Qed.

Lemma seed_regions (labs : list nat) (n i : nat) :
  labelled img labs n -> regions img labs ->
  (i < size (shape img))%nat -> nth i (data img) 0 <> 0 -> labs !! i = Some 0%nat ->
  regions img (measure.flood (length labs) img (S n) (nth i (data img) 0)
                 (<[i := S n]> labs)).
Proof.
  intros Hinv [Hsound Hclosed] Hi Hv Hzero.
  set (k := S n). set (v := nth i (data img) 0).
  set (labs1 := <[i := k]> labs).
  set (labs2 := measure.flood (length labs) img k v labs1).
  assert (Hk : k <> 0%nat) by done.
  pose proof Hinv as (Hlen & Hle & _ & _).
  assert (Hlen1 : length labs1 = size (shape img)).
  { unfold labs1. by rewrite length_insert. }
  pose proof (flood_spreads img (length labs) k v labs1) as Hsp. fold labs2 in Hsp.
  assert (Hlen2 : length labs2 = size (shape img)).
  { destruct Hsp as [-> _]. done. }
  assert (Hfresh : forall m, labs1 !! m = Some k -> m = i).
  { intros m Hm. destruct (decide (m = i)) as [|Hne]; [done|].
    unfold labs1 in Hm. rewrite list_lookup_insert_ne in Hm by done.
    apply Hle in Hm. unfold k in Hm. lia. }
  assert (Hreg : region_of img k v i labs2).
  { apply flood_region; try done.
    intros m Hm. apply Hfresh in Hm as ->. split; [done | apply rtc_refl]. }
  assert (Hfix : measure.grow img k v labs2 = labs2).
  { apply (flood_fixpoint img k v Hk).
    rewrite <- (length_insert labs i k). apply zeros_le_length. }
  assert (Hkeep : forall j l, labs !! j = Some l -> l <> 0%nat -> labs2 !! j = Some l).
  { intros j l Hj Hl. eapply spreads_keeps; [exact Hsp| |done].
    unfold labs1. rewrite list_lookup_insert_ne; [done|]. intros ->. congruence. }
  assert (Hold : forall j l, labs2 !! j = Some l -> l <> 0%nat -> l <> k ->
                             labs !! j = Some l).
  { intros j l Hj Hl Hlk. destruct Hsp as [_ Hsp].
    destruct (Hsp j l Hj) as (l1 & Hj1 & [->|(_ & _ & ->)]); [|done].
    destruct (decide (j = i)) as [->|Hne].
    - unfold labs1 in Hj1. rewrite list_lookup_insert_eq in Hj1 by (by rewrite Hlen).
      congruence.
    - unfold labs1 in Hj1. by rewrite list_lookup_insert_ne in Hj1. }
  split.
  - intros j m l Hj Hm Hl. destruct (decide (l = k)) as [->|Hlk].
    + destruct (Hreg j Hj) as [_ Hij], (Hreg m Hm) as [_ Him].
      eapply rtc_trans; [apply linked_sym, Hij | exact Him].
    + apply (Hsound j m l); [by apply Hold | by apply Hold | done].
  - intros j m l Hj Hl Htouch.
    pose proof Htouch as (_ & Hm & Hadj & Hval).
    destruct (lookup_lt_is_Some_2 labs2 m) as [lm Hlm]; [by rewrite Hlen2|].
    destruct (decide (l = k)) as [->|Hlk].
    + destruct (Hreg j Hj) as [Hvj _].
      destruct (decide (lm = k)) as [->|Hmk]; [done|].
      destruct (decide (lm = 0%nat)) as [->|Hm0].
      * exfalso. apply (grow_fixpoint_closed img k v Hk labs2 j m); try done.
        -- by rewrite adjacent_sym.
        -- congruence.
      * exfalso. pose proof (Hold m lm Hlm Hm0 Hmk) as Hm'.
        assert (Hj' : labs !! j = Some lm).
        { apply (Hclosed m j lm); [done..|]. by symmetry. }
        apply Hkeep in Hj'; [|done]. congruence.
    + apply Hkeep; [|done]. apply (Hclosed j m l); [|done..]. by apply Hold.
Qed.

Lemma scan_regions (todo labs : list nat) (n : nat) (labs' : list nat) (n' : nat) :
  measure.scan img todo labs n = (labs', n') ->
  labelled img labs n -> regions img labs ->
  (forall j, j ∈ todo -> (j < size (shape img))%nat) ->
  regions img labs'.
Proof.
  revert labs n. induction todo as [|i todo IH]; intros labs n Hscan Hinv Hreg Htodo.
  - by injection Hscan as <- <-.
  - assert (Hi : (i < size (shape img))%nat) by (apply Htodo; by left).
    assert (Hrest : forall j, j ∈ todo -> (j < size (shape img))%nat).
    { intros j Hj. apply Htodo. by right. }
    destruct (lookup_lt_is_Some_2 labs i) as [li Hli].
    { destruct Hinv as [-> _]. done. }
    simpl in Hscan. rewrite (nth_lookup_Some _ _ _ _ Hli) in Hscan.
    destruct (Z.eqb_spec (nth i (data img) 0) 0) as [Hbg|Hfg]; simpl in Hscan.
    { by apply (IH _ _ Hscan). }
    destruct (Nat.eqb_spec li 0) as [Hz|Hlab]; simpl in Hscan.
    + rewrite Hz in Hli.
      destruct (seed_labelled img labs n i _ Hinv Hi Hfg Hli
                  (flood_spreads img (length labs) (S n) (nth i (data img) 0) _))
        as (Hinv1 & _ & _).
      apply (IH _ _ Hscan Hinv1); [|done]. by apply seed_regions.
    + by apply (IH _ _ Hscan).
Qed.

Lemma label_regions : regions img (data (measure.label img).1).
Proof.
  unfold measure.label.
  destruct (measure.scan img (seq 0 (size (shape img)))
              (replicate (size (shape img)) 0%nat) 0) as [labs num] eqn:E.
  simpl. apply (scan_regions _ _ _ _ _ E (labelled_init img)).
  - split.
    + intros j m l Hj _ Hl. apply lookup_replicate in Hj as [-> _]. done.
    + intros j m l Hj Hl. apply lookup_replicate in Hj as [-> _]. done.
  - intros j Hj. apply elem_of_seq in Hj. lia.
Qed.

Lemma regions_linked (labs : list nat) (j m l : nat) :
  regions img labs -> linked img j m ->
  labs !! j = Some l -> l <> 0%nat -> labs !! m = Some l.
Proof.
  intros [_ Hclosed] Hlink. induction Hlink as [|a b c Hab _ IH]; intros Hl Hnz; [done|].
  apply IH; [|done]. by apply (Hclosed a b l).
Qed.

(** The number of labels is 1 exactly when the mask has one connected
    component. *)
Lemma num_components_one : num_components img = 1%nat <-> single_component img.
Proof.
  unfold num_components.
  destruct (label_spec img) as (_ & Hlen & Hle & Hused & Hiff).
  destruct label_regions as [Hsound Hclosed].
  set (L := data (measure.label img).1) in *.
  set (num := (measure.label img).2) in *.
  assert (Hlab : forall j, (j < size (shape img))%nat -> nth j (data img) 0 <> 0 ->
                           exists l, L !! j = Some l /\ l <> 0%nat).
  { intros j Hj Hnz. destruct (lookup_lt_is_Some_2 L j) as [l Hl]; [by rewrite Hlen|].
    exists l. split; [done|]. by apply (Hiff j l Hl). }
  split.
  - intros Hone. split.
    + assert (Hin : 1%nat ∈ L) by (apply Hused; lia).
      apply list_elem_of_lookup in Hin as [j Hj]. exists j. split.
      * apply lookup_lt_Some in Hj. by rewrite <- Hlen.
      * by apply (Hiff j 1%nat Hj).
    + intros j m Hj Hm Hjnz Hmnz.
      destruct (Hlab j Hj Hjnz) as (l & Hl & Hlnz).
      destruct (Hlab m Hm Hmnz) as (l' & Hl' & Hlnz').
      pose proof (Hle _ _ Hl). pose proof (Hle _ _ Hl').
      apply (Hsound j m 1%nat); [| |done]; rewrite ?Hl, ?Hl'; f_equal; lia.
  - intros [(j0 & Hj0 & Hnz0) Hall].
    destruct (Hlab j0 Hj0 Hnz0) as (l0 & Hl0 & Hl0nz).
    assert (Hsame : forall l, (1 <= l <= num)%nat -> l = l0).
    { intros l Hl. pose proof (Hused l Hl) as Hin.
      apply list_elem_of_lookup in Hin as [j Hj].
      assert (Hjlt : (j < size (shape img))%nat).
      { apply lookup_lt_Some in Hj. by rewrite <- Hlen. }
      assert (Hjnz : nth j (data img) 0 <> 0) by (apply (Hiff j l Hj); lia).
      pose proof (Hall j0 j Hj0 Hjlt Hnz0 Hjnz) as Hlink.
      assert (Hj' : L !! j = Some l0).
      { by apply (regions_linked L j0 j l0 label_regions). }
      congruence. }
    pose proof (Hle _ _ Hl0) as Hl0le.
    destruct (decide (num = 1%nat)) as [|Hne]; [done|].
    assert (1%nat = l0) by (apply Hsame; lia).
    assert (2%nat = l0) by (apply Hsame; lia).
    lia.
Qed.

End ScanRegions.

(** For every pair of foreground voxels: they receive one label exactly
    when they are linked, that is, when they lie in one connected
    component. *)
Theorem label_components (img : ndarray Z) (j m : nat) :
  (j < size (shape img))%nat -> (m < size (shape img))%nat ->
  nth j (data img) 0 <> 0 ->
  (data (measure.label img).1 !! j = data (measure.label img).1 !! m <-> linked img j m).
Proof.
  intros Hj Hm Hnz.
  destruct (label_spec img) as (_ & Hlen & _ & _ & Hiff).
  destruct (lookup_lt_is_Some_2 (data (measure.label img).1) j) as [l Hl];
    [by rewrite Hlen|].
  assert (Hlnz : l <> 0%nat) by (by apply (Hiff j l Hl)).
  split.
  - intros Heq. rewrite Hl in Heq.
    destruct (label_regions img) as [Hsound _]. by apply (Hsound j m l).
  - intros Hlink. rewrite Hl. symmetry.
    by apply (regions_linked img _ j m l (label_regions img)).
Qed.

Lemma label_components_witness :
  data (measure.label ring3).1 !! 0%nat = data (measure.label ring3).1 !! 8%nat
  <-> linked ring3 0 8.
Proof. apply label_components; [vm_compute; lia | vm_compute; lia | vm_compute; discriminate]. Defined.

(** C9, for the selection itself (before the closing pass).  On a mask
    with a foreground voxel the selection succeeds, the selected component
    has at most as many foreground voxels as the mask, and as many exactly
    when the mask has one connected component. *)
Theorem largestCC_img_count (M : ndarray Z) :
  wf M -> (0 < count_nonzero M)%nat ->
  exists r, largestCC_img M = Ok r /\
            (count_nonzero r <= count_nonzero M)%nat /\
            (count_nonzero r = count_nonzero M <-> single_component M).
Proof.
  intros Hwf Hfg.
  destruct (largestCC_img_count_labels M Hwf Hfg) as (r & Hr & Hle & Heq).
  exists r. split; [done|]. split; [done|].
  by rewrite Heq, num_components_one.
Qed.

Lemma largestCC_img_count_witness :
  exists r, largestCC_img ring3 = Ok r /\
            (count_nonzero r <= count_nonzero ring3)%nat /\
            (count_nonzero r = count_nonzero ring3 <-> single_component ring3).
Proof.
  apply largestCC_img_count.
  - reflexivity.
  - vm_compute. lia.
Defined.

(** C9 as the specification states it fails once the closing pass is
    included: the ring of 8 foreground voxels is one connected component,
    and the closing fills its centre, so the largest component returned
    has 9 foreground voxels, more than the mask. *)
Lemma largest_component_exceeds_mask :
  wf ring3 /\ count_nonzero ring3 = 8%nat /\ single_component ring3 /\
  exists r, largest_component ring3 = Ok r /\ count_nonzero r = 9%nat /\
            ~ (count_nonzero r <= count_nonzero ring3)%nat.
Proof.
  split; [reflexivity|]. split; [reflexivity|].
  split; [apply num_components_one; vm_compute; reflexivity|].
  eexists. split; [vm_compute; reflexivity|].
  split; [reflexivity|]. vm_compute. lia.
Qed.

(** * The rest of the class *)

(** ** What the scan returns and how it fails *)

Lemma where_from_head_least (mask : list bool) (i j : nat) (rest : list nat) :
  np.where_from i mask = j :: rest -> forall j', j' ∈ np.where_from i mask -> (j <= j')%nat.
Proof.
  revert i. induction mask as [|b mask IH]; intros i Hhead j' Hj'; [done|].
  simpl in Hhead, Hj'. destruct b.
  - injection Hhead as <- _. apply elem_of_cons in Hj' as [->|Hj']; [done|].
    apply elem_of_where_from in Hj' as [? _]. lia.
  - by apply (IH (S i)).
Qed.

Lemma find_all_minima_head_least (c : list Z) (j : nat) (rest : list nat) :
  find_all_minima c = j :: rest ->
  strict_interior_min c (S j) /\ forall i, strict_interior_min c i -> (S j <= i)%nat.
Proof.
  intros Hhead. split.
  - apply elem_of_find_all_minima. rewrite Hhead. by left.
  - intros [|i] Hi; [destruct Hi as [? _]; lia|].
    apply elem_of_find_all_minima in Hi.
    unfold find_all_minima, np.where1 in Hhead, Hi.
    pose proof (where_from_head_least _ _ _ _ Hhead i Hi). lia.
Qed.

Lemma select_bones_Ok (cmps : list nat) (imgs : list (ndarray Z)) (b : ndarray Z) :
  select_bones cmps imgs = Ok b ->
  exists j, imgs !! j = Some b /\
            strict_interior_min (map Z.of_nat cmps) (S j) /\
            forall i, strict_interior_min (map Z.of_nat cmps) i -> (S j <= i)%nat.
Proof.
  unfold select_bones. intros H. apply bind_Ok in H as (j & Hj & Hb).
  apply index_Ok in Hj, Hb. exists j. split; [done|].
  destruct (find_all_minima (map Z.of_nat cmps)) as [|j0 rest] eqn:E; [done|].
  injection Hj as ->. by apply (find_all_minima_head_least _ _ rest).
Qed.

Lemma select_bones_in_range (cmps : list nat) (imgs : list (ndarray Z)) :
  length imgs = length cmps ->
  (exists i, strict_interior_min (map Z.of_nat cmps) i) ->
  exists b, select_bones cmps imgs = Ok b.
Proof.
  intros Hlen [i Hi]. unfold select_bones.
  destruct (find_all_minima (map Z.of_nat cmps)) as [|j rest] eqn:E.
  { exfalso. by apply (proj1 (find_all_minima_nil_iff _) E i). }
  destruct (find_all_minima_head_least _ _ _ E) as [(_ & Hj & _) _].
  rewrite length_map in Hj.
  destruct (lookup_lt_is_Some_2 imgs j) as [b Hb]; [lia|].
  exists b. simpl. unfold py.index. by rewrite Hb.
Qed.

Lemma arange_lookup (start stop step : Z) (j : nat) (t : Z) :
  np.arange start stop step !! j = Some t -> t = start + Z.of_nat j * step.
Proof.
  unfold np.arange. change (map ?f ?l) with (f <$> l).
  rewrite list_lookup_fmap. intros H.
  destruct (seq 0 _ !! j) as [k|] eqn:E; [|discriminate].
  apply lookup_seq in E as [-> _]. injection H as <-. done.
Qed.

Lemma process_results_masks (img_data : ndarray Z) (Imax : Z) (l : list Z) (j : nat) :
  (process_results img_data Imax l).2 !! j
  = (fun i_min => SegmentationByTH img_data i_min Imax) <$> l !! j.
Proof. unfold process_results. simpl. apply list_lookup_fmap. Qed.

Lemma process_results_lengths (img_data : ndarray Z) (Imax : Z) (l : list Z) :
  length (process_results img_data Imax l).2 = length (process_results img_data Imax l).1.
Proof. unfold process_results. simpl. by rewrite !length_map. Qed.

(** X7.  A mask returned by the scan is the segmentation at the
    threshold [150 + j * resolution] for the position [j] one before the
    first strict interior minimum of the curve. *)
Theorem SkeletonTHFinder_selected_threshold
    (img_data : ndarray Z) (resolution Imax : Z) (num_cores : nat) (bones : ndarray Z) :
  0 < resolution -> (1 <= num_cores)%nat ->
  SkeletonTHFinder img_data resolution Imax num_cores = Ok bones ->
  exists (curve : list nat) (j : nat),
    component_curve img_data resolution Imax num_cores = Ok curve /\
    strict_interior_min (map Z.of_nat curve) (S j) /\
    (forall i, strict_interior_min (map Z.of_nat curve) i -> (S j <= i)%nat) /\
    bones = SegmentationByTH img_data (150 + Z.of_nat j * resolution) Imax.
Proof.
  intros Hres Hn. pose proof (dispatched_thresholds resolution num_cores Hres Hn) as Hd.
  unfold SkeletonTHFinder, component_curve. rewrite aggregate_sequential.
  destruct (_tasks_distribution resolution num_cores) as [ranges|]; [|discriminate].
  simpl in Hd |- *. injection Hd as Hd.
  intros Hsel. apply select_bones_Ok in Hsel as (j & Hj & Hmin & Hleast).
  eexists _, j. split; [reflexivity|]. split; [exact Hmin|]. split; [exact Hleast|].
  rewrite Hd in Hj. change (map ?f ?l) with (f <$> l) in Hj.
  rewrite list_lookup_fmap in Hj.
  destruct (np.arange _ _ _ !! j) as [t|] eqn:Ht; [|discriminate].
  apply arange_lookup in Ht as ->. by injection Hj as <-.
Qed.

Lemma SkeletonTHFinder_selected_threshold_witness :
  exists (curve : list nat) (j : nat),
    component_curve dip_volume 10 1300 4 = Ok curve /\
    strict_interior_min (map Z.of_nat curve) (S j) /\
    (forall i, strict_interior_min (map Z.of_nat curve) i -> (S j <= i)%nat) /\
    mk_ndarray (1, 1, 22)%nat
      [0; 0; 65535; 65535; 65535; 65535; 65535; 65535; 65535; 65535; 65535; 0; 0; 0;
       65535; 65535; 65535; 0; 0; 0; 0; 0]
    = SegmentationByTH dip_volume (150 + Z.of_nat j * 10) 1300.
Proof.
  apply SkeletonTHFinder_selected_threshold; [lia | lia |].
  vm_compute. reflexivity.
Defined.

(** X8.  The scan fails in two ways only: with [ZeroDivisionError], when
    the resolution or the number of cores is 0, and with [IndexError],
    when the curve has no strict interior minimum.  It never fails for a
    missing worker result, and never on the second index
    [img_threshold_result[...]]. *)
Theorem SkeletonTHFinder_failures
    (img_data : ndarray Z) (resolution Imax : Z) (num_cores : nat) (e : exn) :
  SkeletonTHFinder img_data resolution Imax num_cores = Raise e ->
  (e = ZeroDivisionError /\ (resolution = 0 \/ num_cores = 0%nat)) \/
  (e = IndexError /\ resolution <> 0 /\ num_cores <> 0%nat /\
   exists curve, component_curve img_data resolution Imax num_cores = Ok curve /\
                 forall i, ~ strict_interior_min (map Z.of_nat curve) i).
Proof.
  unfold SkeletonTHFinder, component_curve. rewrite aggregate_sequential.
  unfold _tasks_distribution, py.floordiv.
  destruct (Z.eqb_spec resolution 0) as [Hres|Hres]; simpl.
  { intros [= <-]. left. auto. }
  destruct (Z.eqb_spec (Z.of_nat num_cores) 0) as [Hn|Hn]; simpl.
  { intros [= <-]. left. split; [done|]. right. lia. }
  match goal with |- select_bones ?c ?i = _ -> _ =>
    set (cmps := c); set (imgs := i);
    assert (Hlen : length imgs = length cmps)
      by (unfold cmps, imgs; by rewrite !length_map) end.
  intros Hsel. right.
  destruct (decide (find_all_minima (map Z.of_nat cmps) = [])) as [Hnil|Hsome].
  - rewrite (select_bones_no_dip cmps imgs) in Hsel
      by (by apply find_all_minima_nil_iff).
    injection Hsel as <-. split; [done|]. split; [done|]. split; [lia|].
    exists cmps. split; [reflexivity|]. by apply find_all_minima_nil_iff.
  - exfalso. destruct (select_bones_in_range cmps imgs Hlen) as [b Hb]; [|congruence].
    destruct (find_all_minima (map Z.of_nat cmps)) as [|j rest] eqn:E; [done|].
    exists (S j). by apply (find_all_minima_head_least _ _ rest).
Qed.

Lemma SkeletonTHFinder_failures_witness :
  (ZeroDivisionError = ZeroDivisionError /\ (0 = 0 \/ 4%nat = 0%nat)) \/
  (ZeroDivisionError = IndexError /\ 0 <> 0 /\ 4%nat <> 0%nat /\
   exists curve, component_curve dip_volume 0 1300 4 = Ok curve /\
                 forall i, ~ strict_interior_min (map Z.of_nat curve) i).
Proof. apply (SkeletonTHFinder_failures dip_volume 0 1300 4). reflexivity. Defined.

Lemma short_curve_no_dip (curve : list Z) :
  (length curve < 3)%nat -> forall i, ~ strict_interior_min curve i.
Proof. intros Hlen i (H1 & H2 & _). lia. Qed.

(** X9.  With more cores than threshold candidates
    ([(514 - 150) // resolution < num_cores]) no threshold is dispatched,
    and with a negative resolution every range is empty: in both cases
    the scan fails with [IndexError] on every volume. *)
Theorem SkeletonTHFinder_nothing_dispatched
    (img_data : ndarray Z) (resolution Imax : Z) (num_cores : nat) :
  (1 <= num_cores)%nat ->
  resolution < 0 \/ (0 < resolution /\ (514 - 150) / resolution < Z.of_nat num_cores) ->
  component_curve img_data resolution Imax num_cores = Ok [] /\
  SkeletonTHFinder img_data resolution Imax num_cores = Raise IndexError.
Proof.
  intros Hn Hcase.
  assert (Hempty : (fun ranges => concat ranges) <$> _tasks_distribution resolution num_cores
                   = Ok []).
  { unfold _tasks_distribution, py.floordiv.
    destruct (Z.eqb_spec resolution 0); [lia|]. simpl.
    destruct (Z.eqb_spec (Z.of_nat num_cores) 0); [lia|]. simpl. f_equal.
    set (d := (514 - 150) / resolution / Z.of_nat num_cores).
    assert (Hd : d <= 0).
    { destruct Hcase as [Hneg|[Hpos Hfew]].
      - assert (Hq : (514 - 150) / resolution < 0).
        { pose proof (Z.div_mod (514 - 150) resolution ltac:(lia)) as Hdm.
          pose proof (Z.mod_neg_bound (514 - 150) resolution Hneg). nia. }
        assert (d < 0) by (apply Z.div_lt_upper_bound; lia). lia.
      - assert (d = 0) as -> by (apply Z.div_small; split; [apply Z.div_pos|]; lia).
        lia. }
    induction (seq 0 num_cores) as [|r rs IH]; [done|].
    simpl. rewrite IH. rewrite app_nil_r. unfold np.arange.
    match goal with |- context [Z.to_nat ?z] => replace (Z.to_nat z) with 0%nat end; [done|].
    replace (150 + Z.of_nat r * d * resolution
             - (150 + Z.of_nat r * d * resolution + d * resolution))
      with (- d * resolution) by lia.
    rewrite Z.div_mul by lia. lia. }
  assert (Hcurve : component_curve img_data resolution Imax num_cores = Ok []).
  { unfold component_curve. rewrite aggregate_sequential.
    destruct (_tasks_distribution resolution num_cores) as [ranges|]; [|discriminate].
    simpl in Hempty |- *. injection Hempty as ->. done. }
  split; [done|].
  unfold component_curve in Hcurve. unfold SkeletonTHFinder.
  destruct (aggregate img_data resolution Imax num_cores) as [[cmps imgs]|]; [|discriminate].
  simpl in Hcurve |- *. injection Hcurve as ->. reflexivity.
Qed.

Lemma SkeletonTHFinder_nothing_dispatched_witness :
  component_curve dip_volume 10 1300 64 = Ok [] /\
  SkeletonTHFinder dip_volume 10 1300 64 = Raise IndexError.
Proof.
  apply SkeletonTHFinder_nothing_dispatched; [lia|].
  right. split; [lia|]. vm_compute. reflexivity.
Defined.

(** ** The thresholds that the histogram marks *)

(** X10.  The histogram step converts a dip position to a threshold with
    the constants 10 and 150, the scan with the object's resolution: for
    a position of the scan, the marked value is the threshold dispatched
    at that position exactly when the resolution is 10 or the position
    is 0. *)
Theorem marked_threshold_is_dispatched
    (resolution : Z) (num_cores : nat) (ranges : list (list Z)) (dip : nat) (t : Z) :
  0 < resolution -> (1 <= num_cores)%nat ->
  _tasks_distribution resolution num_cores = Ok ranges ->
  concat ranges !! dip = Some t ->
  marked_thresholds [dip] = [t] <-> resolution = 10 \/ dip = 0%nat.
Proof.
  intros Hres Hn Hranges Ht.
  pose proof (dispatched_thresholds resolution num_cores Hres Hn) as Hd.
  rewrite Hranges in Hd. simpl in Hd. injection Hd as Hd.
  rewrite Hd in Ht. apply arange_lookup in Ht as ->.
  unfold marked_thresholds. simpl. split.
  - intros [= H]. destruct (decide (dip = 0%nat)); [by right|left; nia].
  - intros [->| ->]; f_equal; lia.
Qed.

Lemma marked_threshold_is_dispatched_witness :
  marked_thresholds [3%nat] = [165] <-> 5 = 10 \/ 3%nat = 0%nat.
Proof.
  eapply (marked_threshold_is_dispatched 5 4 _ 3 165); [lia | lia | reflexivity | reflexivity].
Defined.

(** ** The bounds and the peaks *)

(** X11.  Bounds returned by the locator are two of the valleys that
    [find_peaks] reports for the negated density, and one of the reported
    peaks lies strictly between them. *)
Theorem find_suspected_pelvis_loc_brackets_peak
    (find_peaks : list Z -> nat -> list nat)
    (argpartition : list Z -> Z -> result (list nat))
    (density : list Z) (lower upper : nat) :
  find_suspected_pelvis_loc find_peaks argpartition density = Ok (lower, upper) ->
  lower ∈ find_peaks (map (fun v => v * -1) density) 200%nat /\
  upper ∈ find_peaks (map (fun v => v * -1) density) 200%nat /\
  exists x1_max, x1_max ∈ find_peaks density 150%nat /\ (lower < x1_max < upper)%nat.
Proof.
  unfold find_suspected_pelvis_loc. intros H.
  apply bind_Ok in H as (heights & _ & H).
  apply bind_Ok in H as (order & _ & H).
  apply bind_Ok in H as (top & Htop & H).
  destruct top as [|x1_max [|x2_max [|? ?]]]; try discriminate.
  apply bind_Ok in H as (minimas & Hcands & H).
  unfold valley_candidates in Hcands.
  apply bind_Ok in Hcands as (depths & _ & Hcands).
  apply bind_Ok in Hcands as (order' & _ & Hminimas).
  apply bounds_from_Ok in H as (Hlo & Hup & Hlt).
  split; [by eapply take_at_elem_of|]. split; [by eapply take_at_elem_of|].
  exists x1_max. split; [|done].
  eapply take_at_elem_of; [exact Htop | by left].
Qed.

Lemma find_suspected_pelvis_loc_brackets_peak_witness :
  (50%nat ∈ scipy_ref.find_peaks (map (fun v => v * -1) two_peak_profile) 200%nat) /\
  (300%nat ∈ scipy_ref.find_peaks (map (fun v => v * -1) two_peak_profile) 200%nat) /\
  exists x1_max, x1_max ∈ scipy_ref.find_peaks two_peak_profile 150%nat /\
                 (50 < x1_max < 300)%nat.
Proof.
  apply (find_suspected_pelvis_loc_brackets_peak scipy_ref.find_peaks scipy_ref.argpartition).
  vm_compute. reflexivity.
Defined.

(** ** Paths *)

Lemma split_nonempty (sep : ascii) (s : list ascii) : pystr.split sep s <> [].
Proof.
  destruct s as [|c s]; simpl; [done|].
  destruct (decide (c = sep)); [done|]. by destruct (pystr.split sep s).
Qed.

Lemma split_app (sep : ascii) (a b : list ascii) :
  pystr.split sep (a ++ sep :: b) = pystr.split sep a ++ pystr.split sep b.
Proof.
  induction a as [|c a IH]; simpl.
  - by rewrite decide_True.
  - destruct (decide (c = sep)); [by rewrite IH|].
    rewrite IH. pose proof (split_nonempty sep a).
    by destruct (pystr.split sep a).
Qed.

Lemma split_no_sep (sep : ascii) (s : list ascii) :
  sep ∉ s -> pystr.split sep s = [s].
Proof.
  induction s as [|c s IH]; intros Hs; simpl; [done|].
  apply not_elem_of_cons in Hs as [Hc Hs].
  rewrite decide_False by done. by rewrite IH.
Qed.

Lemma split_pieces (sep : ascii) (s p : list ascii) :
  p ∈ pystr.split sep s -> sep ∉ p.
Proof.
  revert p. induction s as [|c s IH]; intros p; simpl.
  - intros Hp. apply list_elem_of_singleton in Hp as ->. apply not_elem_of_nil.
  - destruct (decide (c = sep)).
    + intros Hp. apply elem_of_cons in Hp as [->|Hp]; [apply not_elem_of_nil | by apply IH].
    + pose proof (split_nonempty sep s).
      destruct (pystr.split sep s) as [|piece pieces]; [done|].
      intros Hp. apply elem_of_cons in Hp as [->|Hp].
      * apply not_elem_of_cons. split; [done|]. apply IH. by left.
      * apply IH. by right.
Qed.

Lemma join_split (sep : ascii) (s : list ascii) :
  pystr.join [sep] (pystr.split sep s) = s.
Proof.
  induction s as [|c s IH]; simpl; [done|].
  destruct (decide (c = sep)) as [->|Hc].
  - pose proof (split_nonempty sep s).
    destruct (pystr.split sep s) as [|piece pieces]; [done|].
    simpl in IH |- *. by rewrite IH.
  - pose proof (split_nonempty sep s).
    destruct (pystr.split sep s) as [|piece pieces]; [done|].
    simpl in IH |- *. destruct pieces; simpl; by rewrite <- IH.
Qed.

Lemma join_app (sep : list ascii) (l1 l2 : list (list ascii)) :
  l1 <> [] -> l2 <> [] ->
  pystr.join sep (l1 ++ l2) = pystr.join sep l1 ++ sep ++ pystr.join sep l2.
Proof.
  intros H1 H2. induction l1 as [|p l1 IH]; [done|].
  destruct l1 as [|q l1].
  - simpl. by destruct l2.
  - change (pystr.join sep ((p :: q :: l1) ++ l2))
      with (p ++ sep ++ pystr.join sep ((q :: l1) ++ l2)).
    rewrite IH by done.
    change (pystr.join sep (p :: q :: l1)) with (p ++ sep ++ pystr.join sep (q :: l1)).
    by rewrite <- !app_assoc.
Qed.

(** The pieces of a split are the maximal separator-free stretches of the
    string. *)
Lemma elem_of_split (sep : ascii) (s p : list ascii) :
  p ∈ pystr.split sep s <->
  (sep ∉ p) /\
  exists a b, s = a ++ p ++ b /\
              (a = [] \/ exists a', a = a' ++ [sep]) /\
              (b = [] \/ exists b', b = sep :: b').
Proof.
  split.
  - intros Hp. split; [by apply (split_pieces sep s)|].
    apply list_elem_of_split in Hp as (l1 & l2 & Hl).
    pose proof (join_split sep s) as Hs. rewrite Hl in Hs.
    destruct l1 as [|q l1], l2 as [|r l2].
    + exists [], []. simpl in *. rewrite app_nil_r. split; [done|]. split; by left.
    + exists [], ([sep] ++ pystr.join [sep] (r :: l2)).
      split; [|split; [by left | right; eauto]].
      change ([] ++ p :: r :: l2) with ([p] ++ r :: l2) in Hs.
      rewrite join_app in Hs by done. done.
    + exists (pystr.join [sep] (q :: l1) ++ [sep]), [].
      split; [|split; [right; eauto | by left]].
      rewrite join_app in Hs by done. simpl in Hs. rewrite app_nil_r.
      rewrite <- Hs. by rewrite <- !app_assoc.
    + exists (pystr.join [sep] (q :: l1) ++ [sep]), ([sep] ++ pystr.join [sep] (r :: l2)).
      split; [|split; right; eauto].
      rewrite join_app in Hs by done.
      change (p :: r :: l2) with ([p] ++ r :: l2) in Hs.
      rewrite join_app in Hs by done.
      rewrite <- Hs. simpl. by rewrite <- !app_assoc.
  - intros (Hsep & a & b & -> & Ha & Hb).
    assert (Hpb : p ∈ pystr.split sep (p ++ b)).
    { destruct Hb as [->|[b' ->]].
      - rewrite app_nil_r, split_no_sep by done. by left.
      - rewrite split_app, split_no_sep by done. by left. }
    destruct Ha as [->|[a' ->]]; [done|].
    rewrite <- app_assoc. simpl. rewrite split_app.
    apply elem_of_app. by right.
Qed.

(** X12.  A path is taken for a NIfTI file exactly when [nii] is one of
    its dot-separated pieces: [nii] stands at the start or right after a
    dot, and at the end or right before a dot. *)
Theorem isNIFTI_iff (file_path : list ascii) :
  isNIFTI file_path = true <->
  exists a b, file_path = a ++ NIFTI ++ b /\
              (a = [] \/ exists a', a = a' ++ ["."%char]) /\
              (b = [] \/ exists b', b = "."%char :: b').
Proof.
  unfold isNIFTI. rewrite bool_decide_eq_true, elem_of_split.
  split; [by intros [_ H]|]. intros H. split; [|done].
  unfold NIFTI. simpl. intros Hin.
  repeat (apply elem_of_cons in Hin as [Hin|Hin]; [discriminate|]).
  by apply elem_of_nil in Hin.
Qed.

Lemma slice_drop_last {A} (l : list A) (x : A) :
  py.slice None (Some (-1)) (l ++ [x]) = l.
Proof.
  unfold py.slice, py.clip. simpl from_option. rewrite length_app. simpl length.
  replace (Z.to_nat _) with (length l).
  - rewrite Nat.sub_0_r, drop_0. by rewrite take_app_length.
  - destruct (Z.ltb_spec (-1) 0); lia.
Qed.

(** X13.  For a path that is not taken for a NIfTI file, the DICOM files
    are looked for beside the file: the pattern is the directory part of
    the path followed by [/*.dcm].  A path with no [/] has an empty
    directory part, and the pattern is [/*.dcm]. *)
Theorem read_file_pattern (dir name : list ascii) :
  "/"%char ∉ name ->
  _read_file false (dir ++ "/"%char :: name)
  = DcmStack (dir ++ String.list_ascii_of_string "/*.dcm") /\
  _read_file false name = DcmStack (String.list_ascii_of_string "/*.dcm").
Proof.
  intros Hname. unfold _read_file. split.
  - rewrite split_app, (split_no_sep _ name) by done.
    rewrite slice_drop_last.
    change (String.list_ascii_of_string "/") with ["/"%char].
    by rewrite join_split.
  - rewrite split_no_sep by done. reflexivity.
Qed.

Lemma read_file_pattern_witness :
  _read_file false (String.list_ascii_of_string "dicom_directory/1"
                    ++ "/"%char :: String.list_ascii_of_string "IM_0000.dcm")
  = DcmStack (String.list_ascii_of_string "dicom_directory/1"
              ++ String.list_ascii_of_string "/*.dcm") /\
  _read_file false (String.list_ascii_of_string "IM_0000.dcm")
  = DcmStack (String.list_ascii_of_string "/*.dcm").
Proof.
  apply read_file_pattern. simpl. intros Hin.
  repeat (apply elem_of_cons in Hin as [Hin|Hin]; [discriminate|]).
  by apply elem_of_nil in Hin.
Defined.

(** ** The constructor *)

Lemma array_min_spec (a : list nat) (m : nat) :
  array_min a = Ok m -> m ∈ a /\ forall x, x ∈ a -> (m <= x)%nat.
Proof.
  destruct a as [|x rest]; [done|]. simpl. intros [= <-].
  induction rest as [|y rest [IHin IHle]]; simpl.
  - split; [by left|]. intros z Hz. apply list_elem_of_singleton in Hz as ->. done.
  - split.
    + destruct (Nat.min_spec y (foldr Nat.min x rest)) as [[_ ->]|[_ ->]].
      * right. by left.
      * apply elem_of_cons in IHin as [->|Hin]; [by left | right; by right].
    + intros z Hz. apply elem_of_cons in Hz as [->|Hz].
      * specialize (IHle x ltac:(by left)). lia.
      * apply elem_of_cons in Hz as [->|Hz]; [lia|].
        specialize (IHle z ltac:(by right)). lia.
Qed.

Lemma array_max_spec (a : list nat) (m : nat) :
  array_max a = Ok m -> m ∈ a /\ forall x, x ∈ a -> (x <= m)%nat.
Proof.
  destruct a as [|x rest]; [done|]. simpl. intros [= <-].
  induction rest as [|y rest [IHin IHle]]; simpl.
  - split; [by left|]. intros z Hz. apply list_elem_of_singleton in Hz as ->. done.
  - split.
    + destruct (Nat.max_spec y (foldr Nat.max x rest)) as [[_ ->]|[_ ->]].
      * apply elem_of_cons in IHin as [->|Hin]; [by left | right; by right].
      * right. by left.
    + intros z Hz. apply elem_of_cons in Hz as [->|Hz].
      * specialize (IHle x ltac:(by left)). lia.
      * apply elem_of_cons in Hz as [->|Hz]; [lia|].
        specialize (IHle z ltac:(by right)). lia.
Qed.

(** Positions and coordinates. *)
Lemma ravel_lt (nx ny nz x y z : nat) :
  (x < nx)%nat -> (y < ny)%nat -> (z < nz)%nat ->
  (ravel (nx, ny, nz) (x, y, z) < size (nx, ny, nz))%nat.
Proof.
  unfold ravel, size. intros Hx Hy Hz.
  assert (H1 : (x * ny + y + 1 <= nx * ny)%nat).
  { pose proof (Nat.mul_le_mono_r (x + 1) nx ny ltac:(lia)). lia. }
  pose proof (Nat.mul_le_mono_r _ _ nz H1). lia.
Qed.

Lemma unravel_ravel (nx ny nz x y z : nat) :
  (y < ny)%nat -> (z < nz)%nat ->
  unravel (nx, ny, nz) (ravel (nx, ny, nz) (x, y, z)) = (x, y, z).
Proof.
  intros Hy Hz. unfold unravel, ravel.
  assert (Hq : (((x * ny + y) * nz + z) / nz = x * ny + y)%nat).
  { rewrite Nat.div_add_l by lia. rewrite Nat.div_small by done. lia. }
  f_equal; [f_equal|].
  - rewrite (Nat.mul_comm ny nz), <- Nat.Div0.div_div, Hq.
    rewrite Nat.div_add_l by lia. rewrite Nat.div_small by done. lia.
  - rewrite Hq. rewrite Nat.add_comm, Nat.Div0.mod_add. by apply Nat.mod_small.
  - rewrite Nat.add_comm, Nat.Div0.mod_add. by apply Nat.mod_small.
Qed.

Lemma unravel_lt (nx ny nz i : nat) :
  (i < size (nx, ny, nz))%nat ->
  exists x y z, unravel (nx, ny, nz) i = (x, y, z) /\
                (x < nx)%nat /\ (y < ny)%nat /\ (z < nz)%nat /\
                ravel (nx, ny, nz) (x, y, z) = i.
Proof.
  unfold size, unravel, ravel. intros Hi.
  assert (0 < ny)%nat by nia. assert (0 < nz)%nat by nia.
  eexists _, _, _. split; [reflexivity|].
  split; [apply Nat.Div0.div_lt_upper_bound; nia|].
  split; [apply Nat.mod_upper_bound; lia|].
  split; [apply Nat.mod_upper_bound; lia|].
  rewrite (Nat.mul_comm ny nz), <- Nat.Div0.div_div.
  pose proof (Nat.div_mod_eq (i / nz) ny). pose proof (Nat.div_mod_eq i nz). nia.
Qed.

Lemma elem_of_nonzero_z (img_data : ndarray Z) (nx ny nz z : nat) :
  shape img_data = (nx, ny, nz) ->
  z ∈ nonzero_z img_data <->
  exists x y, (x < nx)%nat /\ (y < ny)%nat /\ (z < nz)%nat /\
              get 0 img_data (x, y, z) <> 0.
Proof.
  intros Hsh. unfold nonzero_z, get. rewrite Hsh, list_elem_of_omap. split.
  - intros (i & Hi & Hz). apply elem_of_seq in Hi.
    destruct (Z.eqb_spec (nth i (data img_data) 0) 0) as [|Hnz]; [done|].
    injection Hz as <-.
    destruct (unravel_lt nx ny nz i) as (x & y & z & Hu & Hx & Hy & Hz & Hr); [lia|].
    unfold unravel in Hu. injection Hu as _ _ <-.
    exists x, y. rewrite Hr. done.
  - intros (x & y & Hx & Hy & Hz & Hnz).
    exists (ravel (nx, ny, nz) (x, y, z)). split.
    + apply elem_of_seq. pose proof (ravel_lt nx ny nz x y z Hx Hy Hz). lia.
    + destruct (Z.eqb_spec (nth (ravel (nx, ny, nz) (x, y, z)) (data img_data) 0) 0);
        [done|].
      f_equal. unfold ravel. rewrite Nat.add_comm, Nat.Div0.mod_add. by apply Nat.mod_small.
Qed.

(** X14.  On the object that [__init__] builds, [bottom_bound_slice] and
    [top_bound_slice] are the first and the last axial slice that hold a
    non-zero voxel: every non-zero voxel lies between them, and each of
    the two slices holds one. *)
Theorem init_slice_bounds
    (file_path : list ascii) (resolution Imax : Z) (volume : ndarray Z)
    (nx ny nz : nat) (ob : PreProcessor.state) :
  shape volume = (nx, ny, nz) ->
  PreProcessor.__init__ file_path resolution Imax volume = Ok ob ->
  let bottom := PreProcessor.bottom_bound_slice ob in
  let top := PreProcessor.top_bound_slice ob in
  (bottom <= top < nz)%nat /\
  (forall x y z, (x < nx)%nat -> (y < ny)%nat -> (z < nz)%nat ->
                 get 0 volume (x, y, z) <> 0 -> (bottom <= z <= top)%nat) /\
  (exists x y, (x < nx)%nat /\ (y < ny)%nat /\ get 0 volume (x, y, bottom) <> 0) /\
  (exists x y, (x < nx)%nat /\ (y < ny)%nat /\ get 0 volume (x, y, top) <> 0).
Proof.
  intros Hsh H. unfold PreProcessor.__init__ in H.
  apply bind_Ok in H as (b & Hb & H). apply bind_Ok in H as (t & Ht & [= <-]).
  simpl. apply array_min_spec in Hb as [Hbin Hble]. apply array_max_spec in Ht as [Htin Htle].
  pose proof (Hble t Htin).
  pose proof (proj1 (elem_of_nonzero_z volume nx ny nz b Hsh) Hbin) as (xb & yb & ? & ? & ? & ?).
  pose proof (proj1 (elem_of_nonzero_z volume nx ny nz t Hsh) Htin) as (xt & yt & ? & ? & ? & ?).
  split; [lia|]. split; [|split; [by exists xb, yb | by exists xt, yt]].
  intros x y z Hx Hy Hz Hnz.
  assert (Hin : z ∈ nonzero_z volume) by (apply (elem_of_nonzero_z volume nx ny nz z Hsh); by exists x, y).
  specialize (Hble z Hin). specialize (Htle z Hin). lia.
Qed.

Lemma init_slice_bounds_witness :
  let ob := PreProcessor.mk_state 10 [] false ∅ dip_volume 2 16 None 1300 in
  let bottom := PreProcessor.bottom_bound_slice ob in
  let top := PreProcessor.top_bound_slice ob in
  (bottom <= top < 22)%nat /\
  (forall x y z, (x < 1)%nat -> (y < 1)%nat -> (z < 22)%nat ->
                 get 0 dip_volume (x, y, z) <> 0 -> (bottom <= z <= top)%nat) /\
  (exists x y, (x < 1)%nat /\ (y < 1)%nat /\ get 0 dip_volume (x, y, bottom) <> 0) /\
  (exists x y, (x < 1)%nat /\ (y < 1)%nat /\ get 0 dip_volume (x, y, top) <> 0).
Proof.
  apply (init_slice_bounds (String.list_ascii_of_string "dicom_directory/1/IM_0000.dcm")
           10 1300 dip_volume 1 1 22); reflexivity.
Defined.



(** X16.  [__init__] leaves the header empty and no method fills it, so
    on the object it builds [transform_to_hu] raises [KeyError] at the
    first lookup and changes nothing. *)
Theorem transform_to_hu_after_init
    (file_path : list ascii) (resolution Imax : Z) (volume : ndarray Z)
    (ob : PreProcessor.state) :
  PreProcessor.__init__ file_path resolution Imax volume = Ok ob ->
  PreProcessor.transform_to_hu ob = (ob, Raise KeyError).
Proof.
  intros H. unfold PreProcessor.__init__ in H.
  apply bind_Ok in H as (b & _ & H). apply bind_Ok in H as (t & _ & [= <-]).
  reflexivity.
Qed.

Lemma transform_to_hu_after_init_witness :
  let ob := PreProcessor.mk_state 10 [] false ∅ dip_volume 2 16 None 1300 in
  PreProcessor.transform_to_hu ob = (ob, Raise KeyError).
Proof.
  apply (transform_to_hu_after_init
           (String.list_ascii_of_string "dicom_directory/1/IM_0000.dcm") 10 1300 dip_volume).
  reflexivity.
Defined.

(** ** Order properties of the morphology *)

Lemma nth_tabulate {A} (d : A) (sh : nat * nat * nat) (f : coord -> A) (i : nat) :
  (i < size sh)%nat -> nth i (data (tabulate sh f)) d = f (unravel sh i).
Proof.
  intros Hi. unfold tabulate. simpl. change (map ?g ?l) with (g <$> l).
  by rewrite nth_lookup, list_lookup_fmap, lookup_seq_lt.
Qed.

Lemma get_tabulate {A} (d : A) (sh : nat * nat * nat) (f : coord -> A) (p : coord) :
  inside sh p -> get d (tabulate sh f) p = f p.
Proof.
  destruct sh as [[nx ny] nz], p as [[x y] z]. intros (Hx & Hy & Hz).
  unfold get. simpl shape. rewrite nth_tabulate by (by apply ravel_lt).
  by rewrite unravel_ravel.
Qed.

Lemma footprint_inside (sh : nat * nat * nat) (p q : coord) :
  inside sh p -> q ∈ morphology.footprint sh p -> inside sh q.
Proof.
  destruct sh as [[nx ny] nz], p as [[x y] z]. intros (Hx & Hy & Hz) Hq.
  unfold morphology.footprint, morphology.before, morphology.after in Hq.
  repeat (apply elem_of_cons in Hq as [->|Hq]); [..|by apply elem_of_nil in Hq];
    simpl;
    repeat match goal with |- context [(?a <? ?b)%nat] => destruct (Nat.ltb_spec a b) end;
    repeat split; lia.
Qed.

Lemma footprint_self (sh : nat * nat * nat) (p : coord) : p ∈ morphology.footprint sh p.
Proof. destruct sh as [[nx ny] nz], p as [[x y] z]. by left. Qed.

Lemma footprint_sym (sh : nat * nat * nat) (p q : coord) :
  inside sh p -> q ∈ morphology.footprint sh p -> p ∈ morphology.footprint sh q.
Proof.
  destruct sh as [[nx ny] nz], p as [[x y] z]. intros (Hx & Hy & Hz) Hq.
  unfold morphology.footprint in Hq.
  repeat (apply elem_of_cons in Hq as [->|Hq]); [..|by apply elem_of_nil in Hq];
    unfold morphology.footprint, morphology.before, morphology.after;
    rewrite !elem_of_cons;
    destruct x as [|x], y as [|y], z as [|z]; simpl Nat.pred;
    repeat match goal with |- context [(?a <? ?b)%nat] => destruct (Nat.ltb_spec a b) end;
    first [ left; repeat f_equal; lia
          | right; left; repeat f_equal; lia
          | right; right; left; repeat f_equal; lia
          | right; right; right; left; repeat f_equal; lia
          | right; right; right; right; left; repeat f_equal; lia
          | right; right; right; right; right; left; repeat f_equal; lia
          | right; right; right; right; right; right; left; repeat f_equal; lia ].
Qed.

Lemma over_footprint_shape (op : Z -> Z -> Z) (img : ndarray Z) :
  shape (morphology.over_footprint op img) = shape img.
Proof. reflexivity. Qed.

Lemma get_over_footprint (op : Z -> Z -> Z) (img : ndarray Z) (p : coord) :
  inside (shape img) p ->
  get 0 (morphology.over_footprint op img) p
  = foldr op (get 0 img p) (map (get 0 img) (morphology.footprint (shape img) p)).
Proof. intros Hp. unfold morphology.over_footprint. by rewrite get_tabulate. Qed.

Lemma foldr_min_le (b : Z) (l : list Z) :
  foldr Z.min b l <= b /\ forall v, v ∈ l -> foldr Z.min b l <= v.
Proof.
  induction l as [|w l [IHb IHl]]; simpl.
  - split; [lia|]. intros v Hv. by apply elem_of_nil in Hv.
  - split; [lia|]. intros v Hv. apply elem_of_cons in Hv as [->|Hv]; [lia|].
    specialize (IHl v Hv). lia.
Qed.

Lemma foldr_min_ge (c b : Z) (l : list Z) :
  c <= b -> (forall v, v ∈ l -> c <= v) -> c <= foldr Z.min b l.
Proof.
  intros Hb. induction l as [|w l IH]; intros Hl; simpl; [done|].
  assert (c <= w) by (apply Hl; by left).
  assert (c <= foldr Z.min b l) by (apply IH; intros v Hv; apply Hl; by right). lia.
Qed.

Lemma foldr_max_ge (b : Z) (l : list Z) :
  b <= foldr Z.max b l /\ forall v, v ∈ l -> v <= foldr Z.max b l.
Proof.
  induction l as [|w l [IHb IHl]]; simpl.
  - split; [lia|]. intros v Hv. by apply elem_of_nil in Hv.
  - split; [lia|]. intros v Hv. apply elem_of_cons in Hv as [->|Hv]; [lia|].
    specialize (IHl v Hv). lia.
Qed.

Lemma foldr_mono (op : Z -> Z -> Z) (f g : coord -> Z) (b b' : Z) (l : list coord) :
  (forall a c a' c', a <= a' -> c <= c' -> op a c <= op a' c') ->
  b <= b' -> (forall q, q ∈ l -> f q <= g q) ->
  foldr op b (map f l) <= foldr op b' (map g l).
Proof.
  intros Hop Hb. induction l as [|q l IH]; intros Hl; simpl; [done|].
  apply Hop; [apply Hl; by left|]. apply IH. intros r Hr. apply Hl. by right.
Qed.

Lemma below_refl (a : ndarray Z) : below a a.
Proof. split; [done|]. intros p _. lia. Qed.

Lemma below_trans (a b c : ndarray Z) : below a b -> below b c -> below a c.
Proof.
  intros [Hs1 H1] [Hs2 H2]. split; [congruence|]. intros p Hp.
  specialize (H1 p Hp). rewrite Hs1 in Hp. specialize (H2 p Hp). lia.
Qed.

Lemma over_footprint_mono (op : Z -> Z -> Z) (a b : ndarray Z) :
  (forall x y x' y', x <= x' -> y <= y' -> op x y <= op x' y') ->
  below a b -> below (morphology.over_footprint op a) (morphology.over_footprint op b).
Proof.
  intros Hop [Hsh Hle]. split; [by rewrite !over_footprint_shape|].
  intros p Hp. rewrite over_footprint_shape in Hp.
  rewrite !get_over_footprint by (by rewrite <- ?Hsh). rewrite <- Hsh.
  apply foldr_mono; [done | by apply Hle |].
  intros q Hq. apply Hle. by apply (footprint_inside _ p).
Qed.

Lemma morphology_mono (a b : ndarray Z) :
  below a b ->
  below (morphology.closing (morphology.opening a)) (morphology.closing (morphology.opening b)).
Proof.
  intros H. unfold morphology.closing, morphology.opening, morphology.erosion,
    morphology.dilation.
  repeat (apply over_footprint_mono; [intros; lia|]). done.
Qed.

Lemma closing_above (img : ndarray Z) : below img (morphology.closing img).
Proof.
  split; [done|]. intros p Hp. unfold morphology.closing, morphology.erosion.
  rewrite get_over_footprint by done.
  assert (Hq : forall q, q ∈ morphology.footprint (shape img) p ->
                         get 0 img p <= get 0 (morphology.dilation img) q).
  { intros q Hq. unfold morphology.dilation.
    rewrite get_over_footprint by (by apply (footprint_inside _ p)).
    apply (proj2 (foldr_max_ge _ _)), list_elem_of_fmap. exists p. split; [done|].
    by apply footprint_sym. }
  apply foldr_min_ge.
  - apply Hq, footprint_self.
  - intros v Hv. apply list_elem_of_fmap in Hv as (q & -> & Hv). by apply Hq.
Qed.

Lemma threshold_step_mono (img_data : ndarray Z) (Imin Imax Imin' Imax' : Z) :
  Imin <= Imin' -> Imax' <= Imax ->
  below (threshold_step img_data Imin' Imax') (threshold_step img_data Imin Imax).
Proof.
  intros Hmin Hmax. split; [done|]. intros p _. unfold get.
  change (shape (threshold_step img_data Imin' Imax')) with (shape img_data).
  change (shape (threshold_step img_data Imin Imax)) with (shape img_data).
  rewrite !nth_lookup, !threshold_step_lookup.
  destruct (data img_data !! ravel (shape img_data) p) as [v|]; simpl; [|done].
  rewrite !threshold_voxel by (apply Z.mod_pos_bound; lia).
  repeat case_decide; unfold MAX_VOXEL_VALUE; lia.
Qed.

(** X17.  Narrowing the window can only remove voxels from the mask: for
    [Imin <= Imin'] and [Imax' <= Imax] the mask of the window
    [(Imin', Imax']] lies below the mask of [(Imin, Imax]].  Along the
    scan, which raises [Imin] and keeps [Imax], the masks are nested. *)
Theorem SegmentationByTH_monotone (img_data : ndarray Z) (Imin Imax Imin' Imax' : Z) :
  Imin <= Imin' -> Imax' <= Imax ->
  below (SegmentationByTH img_data Imin' Imax') (SegmentationByTH img_data Imin Imax).
Proof.
  intros Hmin Hmax. unfold SegmentationByTH.
  by apply morphology_mono, threshold_step_mono.
Qed.

Lemma SegmentationByTH_monotone_witness :
  below (SegmentationByTH dip_volume 170 1300) (SegmentationByTH dip_volume 150 1300).
Proof. apply SegmentationByTH_monotone; lia. Defined.

(** X18.  The closing pass never removes a voxel of the selected
    component: the array that [largest_component] returns lies above the
    selection it closes. *)
Theorem largest_component_keeps_selection (bones out : ndarray Z) :
  largest_component bones = Ok out ->
  exists largestCC, largestCC_img bones = Ok largestCC /\ below largestCC out.
Proof.
  unfold largest_component. destruct (largestCC_img bones) as [sel|]; [|discriminate].
  intros [= <-]. exists sel. split; [done|]. apply closing_above.
Qed.

Lemma largest_component_keeps_selection_witness :
  exists largestCC, largestCC_img ring3 = Ok largestCC /\
                    below largestCC (mk_ndarray (3, 3, 1)%nat (replicate 9 65535)).
Proof. apply largest_component_keeps_selection. vm_compute. reflexivity. Defined.

(** ** The choice of the largest component *)







(** ** One case, end to end *)

Lemma SkeletonTHFinder_mask
    (img_data : ndarray Z) (resolution Imax : Z) (num_cores : nat) (bones : ndarray Z) :
  SkeletonTHFinder img_data resolution Imax num_cores = Ok bones ->
  exists Imin, bones = SegmentationByTH img_data Imin Imax.
Proof.
  unfold SkeletonTHFinder. rewrite aggregate_sequential.
  destruct (_tasks_distribution resolution num_cores) as [ranges|]; [|discriminate].
  simpl. intros H. apply select_bones_Ok in H as (j & Hj & _).
  change (map ?f ?l) with (f <$> l) in Hj. rewrite list_lookup_fmap in Hj.
  destruct (concat ranges !! j) as [t|]; [|discriminate].
  injection Hj as <-. by exists t.
Qed.

Lemma SegmentationByTH_values (img_data : ndarray Z) (Imin Imax : Z) :
  Forall (fun v => v = 0 \/ v = MAX_VOXEL_VALUE) (data (SegmentationByTH img_data Imin Imax)).
Proof.
  unfold SegmentationByTH. apply morphology_closed.
  - by left.
  - intros a b [->| ->] [->| ->]; unfold MAX_VOXEL_VALUE; lia.
  - intros a b [->| ->] [->| ->]; unfold MAX_VOXEL_VALUE; lia.
  - rewrite threshold_step_data. apply Forall_forall. intros v Hv.
    apply list_elem_of_fmap in Hv as (w & -> & _).
    rewrite threshold_voxel by (apply Z.mod_pos_bound; lia).
    case_decide; auto.
Qed.

Lemma largest_component_values (bones out : ndarray Z) :
  Forall (fun v => v = 0 \/ v = MAX_VOXEL_VALUE) (data bones) ->
  largest_component bones = Ok out ->
  shape out = shape bones /\ Forall (fun v => v = 0 \/ v = MAX_VOXEL_VALUE) (data out).
Proof.
  intros Hbin. unfold largest_component.
  destruct (largestCC_img bones) as [sel|] eqn:E; [|discriminate]. intros [= <-].
  unfold largestCC_img in E. apply bind_Ok in E as (k & _ & [= <-]).
  split; [done|].
  unfold morphology.closing, morphology.erosion, morphology.dilation.
  repeat (apply over_footprint_closed;
          [by left | intros a b [->| ->] [->| ->]; unfold MAX_VOXEL_VALUE; lia |]).
  simpl. apply Forall_forall. intros v Hv.
  apply elem_of_lookup_zip_with in Hv as (i & w & b & -> & Hw & _).
  rewrite Forall_forall in Hbin.
  destruct (Hbin w) as [->| ->]; [apply list_elem_of_lookup; eauto | by left |].
  destruct b; simpl; [right|left]; unfold MAX_VOXEL_VALUE; lia.
Qed.

Lemma crop_axial_spec (img : ndarray Z) (nx ny nz lower upper : nat) :
  shape img = (nx, ny, nz) -> (lower <= upper <= nz)%nat ->
  shape (crop_axial img lower upper) = (nx, ny, upper - lower)%nat /\
  wf (crop_axial img lower upper) /\
  forall P : Z -> Prop, P 0 -> Forall P (data img) -> Forall P (data (crop_axial img lower upper)).
Proof.
  intros Hsh Hb. unfold crop_axial. rewrite Hsh.
  rewrite !Nat.min_l by lia. split; [done|]. split.
  - unfold wf, tabulate. simpl. by rewrite length_map, length_seq.
  - intros P H0 Hall. unfold tabulate. simpl. apply Forall_forall. intros v Hv.
    apply list_elem_of_fmap in Hv as (i & -> & _).
    by apply get_closed.
Qed.

(** X20.  Whatever [find_peaks] and [argpartition] answer, the volume
    that one case of the batch saves is a well-formed binary mask: it has
    the first two axes of the input, between 1 and [nz - 1] of its [nz]
    axial slices, and holds only the values 0 and [MAX_VOXEL_VALUE]. *)
Theorem run_case_output
    (find_peaks : list Z -> nat -> list nat)
    (argpartition : list Z -> Z -> result (list nat))
    (file_path : list ascii) (volume : ndarray Z) (num_cores : nat)
    (nx ny nz : nat) (out : ndarray Z) :
  shape volume = (nx, ny, nz) ->
  run_case find_peaks argpartition file_path volume num_cores = Ok out ->
  wf out /\
  Forall (fun v => v = 0 \/ v = MAX_VOXEL_VALUE) (data out) /\
  exists lower_bound upper_bound,
    (lower_bound < upper_bound < nz)%nat /\
    shape out = (nx, ny, upper_bound - lower_bound)%nat.
Proof.
  intros Hsh H. unfold run_case in H.
  apply bind_Ok in H as (ob & Hob & H). apply bind_Ok in H as (bones & Hbones & H).
  unfold PreProcessor.__init__ in Hob.
  apply bind_Ok in Hob as (b & _ & Hob). apply bind_Ok in Hob as (t & _ & [= <-]).
  unfold extract_pelvis_bone in Hbones. simpl in Hbones.
  apply SkeletonTHFinder_mask in Hbones as (Imin & ->).
  unfold get_Nlargest_component in H.
  apply bind_Ok in H as (lc & Hlc & H).
  apply bind_Ok in H as ([lo hi] & Hroi & [= <-]).
  apply largest_component_values in Hlc as [Hlsh Hlbin]; [|apply SegmentationByTH_values].
  change (shape (SegmentationByTH volume Imin 1300)) with (shape volume) in Hlsh.
  unfold get_pelvis_ROI in Hroi.
  apply find_suspected_pelvis_loc_Ok in Hroi as [Hlt Hup].
  rewrite axial_density_length in Hup.
  change (shape (SegmentationByTH volume Imin 1300)) with (shape volume) in Hup.
  rewrite Hsh in Hup, Hlsh. simpl in Hup.
  destruct (crop_axial_spec lc nx ny nz lo hi Hlsh) as (Hcsh & Hwf & Hclosed); [lia|].
  split; [done|]. split; [apply Hclosed; [by left | done]|].
  exists lo, hi. split; [lia | done].
Qed.

Lemma run_case_output_witness :
  let out := mk_ndarray (1, 1, 12)%nat
               [0; 0; 65535; 65535; 65535; 65535; 65535; 65535; 65535; 65535; 65535; 0] in
  wf out /\
  Forall (fun v => v = 0 \/ v = MAX_VOXEL_VALUE) (data out) /\
  exists lower_bound upper_bound,
    (lower_bound < upper_bound < 22)%nat /\
    shape out = (1, 1, upper_bound - lower_bound)%nat.
Proof.
  apply (run_case_output every_peak scipy_ref.argpartition
           (String.list_ascii_of_string "dicom_directory/1/IM_0000.dcm") blob_volume 4);
    [reflexivity|].
  vm_compute. reflexivity.
Defined.

(** ** Volumes too short for the locator *)



